(** * Student attendance system: record store and serializer

    A shallow embedding of [core_logic/attendance_system.cpp]
    (class [AttendanceSystem]) together with the properties of its
    record store and of its hand-written JSON-like file format.

    Modelling conventions
    - [std::string] is a list of characters ([cstring]); comparison is
      the lexicographic comparison of unsigned character codes, as
      [std::char_traits<char>] defines it.
    - [int] is a [Z]; the places where a [size_t] is converted to [int]
      write the 32-bit wrap-around out ([wrap_int]).
    - [std::map<int, std::vector<std::string>>] is an association list
      kept in strictly ascending key order ([StdMap]); iteration visits
      the list from left to right.
    - member functions that mutate [attendance] take the store and
      return the new one; [const] member functions only read it.
    - [std::cerr] output is kept as a list of diagnostics. *)

From Stdlib Require Import String Ascii.
From Stdlib Require Import ZArith Bool Lia.
From Stdlib Require Import DecimalString DecimalPos.
From Stdlib Require Import Sorting.Sorted Sorting.Permutation.
From Stdlib Require Import List.
Import ListNotations.

Open Scope Z_scope.

(** ** Characters and strings *)

Definition cstring := list ascii.

Definition dquote : ascii := "034"%char.
Definition backslash : ascii := "\"%char.
Definition newline : ascii := "010"%char.
Definition carriage_return : ascii := "013"%char.
Definition tab : ascii := "009"%char.
Definition vtab : ascii := "011"%char.
Definition formfeed : ascii := "012"%char.
Definition space : ascii := " "%char.

(** A C++ string literal without quotes inside. *)
Definition str (s : string) : cstring := list_ascii_of_string s.

(** A C++ string literal in which every escaped double quote is written
    as an apostrophe (none of the literals of the program has one). *)
Definition lit (s : string) : cstring :=
  List.map (fun c => if Ascii.eqb c "'"%char then dquote else c)
           (list_ascii_of_string s).

Definition cstring_dec : forall a b : cstring, {a = b} + {a <> b} :=
  list_eq_dec ascii_dec.

Fixpoint cstring_eqb (a b : cstring) : bool :=
  match a, b with
  | [], [] => true
  | x :: a', y :: b' => Ascii.eqb x y && cstring_eqb a' b'
  | _, _ => false
  end.

(** [std::string::compare]: characters are compared as unsigned. *)
Fixpoint str_compare (a b : cstring) : comparison :=
  match a, b with
  | [], [] => Eq
  | [], _ :: _ => Lt
  | _ :: _, [] => Gt
  | x :: a', y :: b' =>
      match N.compare (N_of_ascii x) (N_of_ascii y) with
      | Eq => str_compare a' b'
      | r => r
      end
  end.

(** [operator<] on [std::string]. *)
Definition str_ltb (a b : cstring) : bool :=
  match str_compare a b with Lt => true | _ => false end.

Definition str_lt (a b : cstring) : Prop := str_ltb a b = true.
Definition str_le (a b : cstring) : Prop := str_ltb b a = false.

(** [s.front()] and [s.back()]; the program calls them on non-empty
    strings only (each call is guarded by a length test). *)
Definition front (s : cstring) : ascii := hd zero s.
Definition back (s : cstring) : ascii := last s zero.

(** [s.substr(pos, n)] and [s.substr(pos)], for [pos <= s.size()]
    (true at every call of the program, so [std::out_of_range] is never
    thrown by them). *)
Definition substr (pos n : nat) (s : cstring) : cstring :=
  firstn n (skipn pos s).
Definition substr_from (pos : nat) (s : cstring) : cstring := skipn pos s.

(** [s.find(c)]; [None] is [std::string::npos]. *)
Fixpoint find_char (c : ascii) (s : cstring) : option nat :=
  match s with
  | [] => None
  | x :: s' => if Ascii.eqb x c then Some O
               else option_map S (find_char c s')
  end.

Definition mem_char (c : ascii) (set : cstring) : bool :=
  existsb (Ascii.eqb c) set.

(** [s.find_first_not_of(set)]. *)
Fixpoint find_first_not_of (set s : cstring) : option nat :=
  match s with
  | [] => None
  | x :: s' => if mem_char x set then option_map S (find_first_not_of set s')
               else Some O
  end.

(** [s.find_last_not_of(set)]. *)
Fixpoint find_last_not_of (set s : cstring) : option nat :=
  match s with
  | [] => None
  | x :: s' =>
      match find_last_not_of set s' with
      | Some i => Some (S i)
      | None => if mem_char x set then None else Some O
      end
  end.

(** [s.erase(0, n)], where [n] may be [npos]. *)
Definition erase_front (n : option nat) (s : cstring) : cstring :=
  match n with
  | Some k => skipn k s
  | None => []
  end.

(** [s.erase(p + 1)] where [p] is the result of [find_last_not_of]:
    [npos + 1] wraps around to [0] in [size_t]. *)
Definition erase_after (p : option nat) (s : cstring) : cstring :=
  match p with
  | Some k => firstn (S k) s
  | None => firstn O s
  end.

(** ** Integers *)

Definition INT_MIN : Z := - 2 ^ 31.
Definition INT_MAX : Z := 2 ^ 31 - 1.

Definition in_int_range (z : Z) : Prop := INT_MIN <= z <= INT_MAX.

(** Conversion of an unsigned size to [int]: reduction modulo [2^32]
    into the signed range. *)
Definition wrap_int (z : Z) : Z := (z + 2 ^ 31) mod 2 ^ 32 - 2 ^ 31.

(** [std::to_string(int)] and [operator<<(int)]: decimal digits with a
    leading minus sign for negative numbers. *)
Definition to_string (n : Z) : cstring :=
  list_ascii_of_string (NilEmpty.string_of_int (Z.to_int n)).

(** ** Exceptions *)

Inductive exception : Type :=
| invalid_argument
| out_of_range.

Inductive result (A : Type) : Type :=
| Ok (a : A)
| Throw (e : exception).
Arguments Ok {A} a.
Arguments Throw {A} e.

Definition bind {A B : Type} (r : result A) (k : A -> result B) : result B :=
  match r with
  | Ok a => k a
  | Throw e => Throw e
  end.


(** [isspace] in the "C" locale. *)
Definition whitespace : cstring :=
  [space; tab; newline; carriage_return; formfeed; vtab].

Definition is_space (c : ascii) : bool := mem_char c whitespace.

Definition digit_value (c : ascii) : option Z :=
  let n := Z.of_N (N_of_ascii c) in
  if (48 <=? n) && (n <=? 57) then Some (n - 48) else None.

Fixpoint skip_spaces (s : cstring) : cstring :=
  match s with
  | c :: s' => if is_space c then skip_spaces s' else s
  | [] => []
  end.

(** The digit loop of [strtol]: the value read so far and the number of
    digits consumed; it stops at the first character that is no digit. *)
Fixpoint read_digits (s : cstring) (acc : Z) (count : nat) : Z * nat :=
  match s with
  | c :: s' =>
      match digit_value c with
      | Some d => read_digits s' (10 * acc + d) (S count)
      | None => (acc, count)
      end
  | [] => (acc, count)
  end.

(** [std::stoi(s)] (base 10): skips leading white space, reads an
    optional sign and the longest run of digits; throws
    [std::invalid_argument] when there is no digit and
    [std::out_of_range] when the value does not fit an [int]. *)
Definition stoi (s : cstring) : result Z :=
  let s1 := skip_spaces s in
  let '(negative, s2) :=
    match s1 with
    | c :: s' => if Ascii.eqb c "-"%char then (true, s')
                 else if Ascii.eqb c "+"%char then (false, s')
                 else (false, s1)
    | [] => (false, s1)
    end in
  let '(magnitude, count) := read_digits s2 0 O in
  match count with
  | O => Throw invalid_argument
  | S _ =>
      let v := if negative then - magnitude else magnitude in
      if (INT_MIN <=? v) && (v <=? INT_MAX) then Ok v else Throw out_of_range
  end.

(** ** [std::vector<std::string>] and [std::sort] *)

Definition vector := list cstring.

(** [std::find(v.begin(), v.end(), x) != v.end()]. *)
Definition vector_contains (x : cstring) (v : vector) : bool :=
  existsb (cstring_eqb x) v.

Fixpoint sort_insert (x : cstring) (v : vector) : vector :=
  match v with
  | [] => [x]
  | y :: v' => if str_ltb x y then x :: y :: v' else y :: sort_insert x v'
  end.

(** [std::sort(v.begin(), v.end())] with [operator<].  The order on
    strings is total and two strings that compare equal are the same
    string, so every sorting algorithm returns the same vector
    (lemma [sorted_permutation_unique] below); insertion sort stands for
    the library's algorithm. *)
Definition std_sort (v : vector) : vector := fold_right sort_insert [] v.

(** ** [std::map<int, vector>] *)

Module StdMap.

Definition t := list (Z * vector).

Definition empty : t := [].

(** [m.find(k)]: [None] is [m.end()]. *)
Fixpoint find (k : Z) (m : t) : option vector :=
  match m with
  | [] => None
  | (k', v) :: m' => if k =? k' then Some v else find k m'
  end.

(** Insertion or replacement at key [k], keeping the key order. *)
Fixpoint insert (k : Z) (v : vector) (m : t) : t :=
  match m with
  | [] => [(k, v)]
  | (k', v') :: m' =>
      if k <? k' then (k, v) :: (k', v') :: m'
      else if k =? k' then (k, v) :: m'
      else (k', v') :: insert k v m'
  end.

(** The first effect of [m[k]]: a missing key is inserted with a
    default-constructed (empty) vector. *)
Definition touch (k : Z) (m : t) : t :=
  match find k m with
  | Some _ => m
  | None => insert k [] m
  end.

(** The vector [m[k]] refers to, once [k] is present. *)
Definition get (k : Z) (m : t) : vector :=
  match find k m with
  | Some v => v
  | None => []
  end.

(** [m.size()]. *)
Definition size (m : t) : nat := length m.

Definition keys (m : t) : list Z := List.map fst m.

(** Well-formedness of the representation: keys strictly ascending. *)
Definition ok (m : t) : Prop := StronglySorted Z.lt (keys m).

End StdMap.

Definition Store := StdMap.t.

(** [attendance[rollNo].push_back(date)]. *)
Definition push_back_at (rollNo : Z) (date : cstring) (attendance : Store) : Store :=
  let attendance := StdMap.touch rollNo attendance in
  StdMap.insert rollNo (StdMap.get rollNo attendance ++ [date]) attendance.

(** [std::sort(attendance[rollNo].begin(), attendance[rollNo].end())]. *)
Definition sort_at (rollNo : Z) (attendance : Store) : Store :=
  let attendance := StdMap.touch rollNo attendance in
  StdMap.insert rollNo (std_sort (StdMap.get rollNo attendance)) attendance.

(** ** [escape_json_string] *)

(** The body of the loop [for (char c : s)]. *)
Definition escape_step (escaped_s : cstring) (c : ascii) : cstring :=
  if Ascii.eqb c dquote then escaped_s ++ [backslash; dquote]
  else if Ascii.eqb c backslash then escaped_s ++ [backslash; backslash]
  else if Ascii.eqb c newline then escaped_s ++ [backslash; "n"%char]
  else if Ascii.eqb c carriage_return then escaped_s ++ [backslash; "r"%char]
  else if Ascii.eqb c tab then escaped_s ++ [backslash; "t"%char]
  else escaped_s ++ [c].

Definition escape_json_string (s : cstring) : cstring :=
  fold_left escape_step s [].

(** ** [markAttendance] *)

Definition mark_success (rollNo : Z) (date : cstring) : cstring :=
  lit "{'status': 'success', 'message': 'Attendance marked for Roll No: "
    ++ to_string rollNo ++ str " on " ++ date ++ lit "'}".

Definition mark_duplicate (rollNo : Z) (date : cstring) : cstring :=
  lit "{'status': 'error', 'message': 'Attendance already marked for Roll No: "
    ++ to_string rollNo ++ str " on " ++ date ++ lit "'}".

Definition markAttendance (rollNo : Z) (date : cstring) (attendance : Store)
  : cstring * Store :=
  let attendance := StdMap.touch rollNo attendance in
  if negb (vector_contains date (StdMap.get rollNo attendance)) then
    let attendance := push_back_at rollNo date attendance in
    let attendance := sort_at rollNo attendance in
    (mark_success rollNo date, attendance)
  else
    (mark_duplicate rollNo date, attendance).

(** ** [viewAttendance] *)

(** The [for (size_t i = 0; i < size; ++i)] loop; [n] counts the
    iterations left. *)
Fixpoint view_loop (v : vector) (n i : nat) (ss : cstring) : cstring :=
  match n with
  | O => ss
  | S n' =>
      let ss := ss ++ [dquote] ++ escape_json_string (nth i v []) ++ [dquote] in
      let ss := if Nat.ltb i (length v - 1) then ss ++ str ", " else ss in
      view_loop v n' (S i) ss
  end.

Definition view_not_found (rollNo : Z) : cstring :=
  lit "{'status': 'error', 'message': 'Roll No: "
    ++ to_string rollNo ++ lit " not found.'}".

Definition viewAttendance (rollNo : Z) (attendance : Store) : cstring :=
  match StdMap.find rollNo attendance with
  | Some dates =>
      let ss := lit "{'status': 'success', 'roll_no': " ++ to_string rollNo
                  ++ lit ", 'dates': [" in
      let ss := view_loop dates (length dates) O ss in
      ss ++ str "]}"
  | None => view_not_found rollNo
  end.

(** ** [getOverallStats] *)

(** [std::set<std::string>]: a strictly ascending list. *)
Fixpoint set_insert (x : cstring) (s : list cstring) : list cstring :=
  match s with
  | [] => [x]
  | y :: s' =>
      if str_ltb x y then x :: y :: s'
      else if str_ltb y x then y :: set_insert x s'
      else y :: s'
  end.

Definition stats_json (totalStudents uniqueDates totalAttendanceEntries : Z)
  : cstring :=
  lit "{'status': 'success', 'stats': {"
    ++ lit "'total_students': " ++ to_string totalStudents ++ str ", "
    ++ lit "'total_unique_dates': " ++ to_string uniqueDates ++ str ", "
    ++ lit "'total_attendance_entries': " ++ to_string totalAttendanceEntries
    ++ str "}}".

(** The body of the loop over the students; the state is
    [totalAttendanceEntries] and [uniqueDates].  The sum is computed in
    [size_t] and stored in an [int]. *)
Definition stats_step (state : Z * list cstring) (pair : Z * vector)
  : Z * list cstring :=
  let '(totalAttendanceEntries, uniqueDates) := state in
  (wrap_int (totalAttendanceEntries + Z.of_nat (length (snd pair))),
   fold_left (fun u date => set_insert date u) (snd pair) uniqueDates).

Definition getOverallStats (attendance : Store) : cstring :=
  let totalStudents := wrap_int (Z.of_nat (StdMap.size attendance)) in
  let state := fold_left stats_step attendance (0, []) in
  stats_json totalStudents (Z.of_nat (length (snd state))) (fst state).

(** ** [loadData] *)

(** What the program writes to [std::cerr]. *)
Inductive diagnostic : Type :=
| InvalidJsonFormat                  (* "Error: Invalid JSON format in ..." *)
| ErrorParsingJson (e : exception)   (* "Error parsing JSON from ...: " e.what() *)
| CouldNotOpenForWriting.            (* "Error: Could not open ... for writing." *)

(** One call of [std::getline(ss, piece, delim)] on a stream whose
    unread characters are [ss]: it fails at end of input, otherwise it
    returns the characters before the next delimiter (or all of them)
    and leaves the stream after that delimiter. *)
Definition getline (delim : ascii) (ss : cstring) : option (cstring * cstring) :=
  match ss with
  | [] => None
  | _ :: _ =>
      match find_char delim ss with
      | Some p => Some (firstn p ss, skipn (S p) ss)
      | None => Some (ss, [])
      end
  end.

(** [length >= 2 && front() == open && back() == close]. *)
Definition enclosed (open close : ascii) (s : cstring) : bool :=
  (2 <=? length s)%nat && Ascii.eqb (front s) open && Ascii.eqb (back s) close.

(** The body of the date loop before [push_back]: trim white space,
    then remove one pair of surrounding quotes. *)
Definition clean_date (date_segment : cstring) : cstring :=
  let date_segment :=
    erase_front (find_first_not_of whitespace date_segment) date_segment in
  let date_segment :=
    erase_after (find_last_not_of whitespace date_segment) date_segment in
  if enclosed dquote dquote date_segment
  then substr 1 (length date_segment - 2) date_segment
  else date_segment.

(** [while (std::getline(date_ss, date_segment, ',')) { ... }]; every
    iteration consumes at least one character, so [fuel] above the
    length of [date_ss] is never exhausted (lemma [read_dates_fuel]). *)
Fixpoint read_dates (fuel : nat) (date_ss : cstring) (rollNo : Z)
    (attendance : Store) : Store :=
  match fuel with
  | O => attendance
  | S fuel' =>
      match getline ","%char date_ss with
      | None => attendance
      | Some (date_segment, date_ss') =>
          read_dates fuel' date_ss' rollNo
            (push_back_at rollNo (clean_date date_segment) attendance)
      end
  end.

(** The date loop followed by the sort of [attendance[rollNo]]. *)
Definition load_dates (value_str : cstring) (rollNo : Z) (attendance : Store)
  : Store :=
  sort_at rollNo (read_dates (S (length value_str)) value_str rollNo attendance).

Definition unquote_key (key_str : cstring) : cstring :=
  if enclosed dquote dquote key_str
  then substr 1 (length key_str - 2) key_str
  else key_str.

(** The body of the [if] inside the scanning loop (a comma at depth 0):
    [continue] leaves the store as it is. *)
Definition process_segment (segment : cstring) (attendance : Store)
  : result Store :=
  match find_char ":"%char segment with
  | None => Ok attendance
  | Some colon_pos =>
      let key_str := substr 0 colon_pos segment in
      let value_str := substr_from (colon_pos + 1) segment in
      let key_str := unquote_key key_str in
      bind (stoi key_str) (fun rollNo =>
      if enclosed "["%char "]"%char value_str then
        let value_str := substr 1 (length value_str - 2) value_str in
        Ok (load_dates value_str rollNo attendance)
      else Ok attendance)
  end.

(** The code after the loop, for the last segment: the bracket test has
    no [else] branch here. *)
Definition process_last_segment (segment : cstring) (attendance : Store)
  : result Store :=
  match find_char ":"%char segment with
  | None => Ok attendance
  | Some colon_pos =>
      let key_str := substr 0 colon_pos segment in
      let value_str := substr_from (colon_pos + 1) segment in
      let key_str := unquote_key key_str in
      bind (stoi key_str) (fun rollNo =>
      let value_str :=
        if enclosed "["%char "]"%char value_str
        then substr 1 (length value_str - 2) value_str
        else value_str in
      Ok (load_dates value_str rollNo attendance))
  end.

(** The brace and bracket counters after reading character [c].  They
    are [int]s that move by one per character, so they stay inside the
    [int] range for every text of fewer than [2^31] characters; no
    wrap-around is written for them. *)
Definition count_nesting (c : ascii) (counts : Z * Z) : Z * Z :=
  let '(brace_count, bracket_count) := counts in
  if Ascii.eqb c "{"%char then (brace_count + 1, bracket_count)
  else if Ascii.eqb c "}"%char then (brace_count - 1, bracket_count)
  else if Ascii.eqb c "["%char then (brace_count, bracket_count + 1)
  else if Ascii.eqb c "]"%char then (brace_count, bracket_count - 1)
  else (brace_count, bracket_count).

(** [for (size_t i = 0; i < json_str.length(); ++i)]; [n] counts the
    iterations left.  The result is the final [start] and store. *)
Fixpoint scan_loop (json_str : cstring) (n i start : nat) (counts : Z * Z)
    (attendance : Store) : result (nat * Store) :=
  match n with
  | O => Ok (start, attendance)
  | S n' =>
      let c := nth i json_str zero in
      let counts := count_nesting c counts in
      if Ascii.eqb c ","%char && (fst counts =? 0) && (snd counts =? 0) then
        let segment := substr start (i - start) json_str in
        let start := (i + 1)%nat in
        bind (process_segment segment attendance) (fun attendance =>
        scan_loop json_str n' (S i) start counts attendance)
      else
        scan_loop json_str n' (S i) start counts attendance
  end.

(** The [try] block of [loadData], after the outer braces are removed. *)
Definition parse_body (json_str : cstring) (attendance : Store) : result Store :=
  bind (scan_loop json_str (length json_str) O O (0, 0) attendance) (fun r =>
  process_last_segment (substr_from (fst r) json_str) (snd r)).

Record load_outcome : Type := {
  loaded : bool;                  (* the value [loadData] returns *)
  load_cerr : list diagnostic;    (* what it writes to [std::cerr] *)
  load_store : Store              (* [attendance] afterwards *)
}.

(** [loadData]; [file] is the content of the data file, [None] when it
    cannot be opened. *)
Definition loadData (file : option cstring) (attendance : Store) : load_outcome :=
  match file with
  | None => Build_load_outcome false [] attendance
  | Some json_str =>
      if (length json_str =? 0)%nat then Build_load_outcome false [] attendance
      else if (length json_str <? 2)%nat
              || negb (Ascii.eqb (front json_str) "{"%char)
              || negb (Ascii.eqb (back json_str) "}"%char)
      then Build_load_outcome false [InvalidJsonFormat] attendance
      else
        let json_str := substr 1 (length json_str - 2) json_str in
        match parse_body json_str attendance with
        | Ok attendance => Build_load_outcome true [] attendance
        | Throw e =>
            (* catch: attendance.clear() *)
            Build_load_outcome false [ErrorParsingJson e] StdMap.empty
        end
  end.

(** The serializer's [decode]: [loadData] on the freshly constructed
    (empty) store, as [main] calls it. *)
Definition decode (text : cstring) : load_outcome :=
  loadData (Some text) StdMap.empty.

(** ** [saveData] *)

(** The body of the inner loop, over the dates of one student; the
    state is the text written so far and the flag [first_date]. *)
Definition write_date (state : cstring * bool) (date : cstring)
  : cstring * bool :=
  let '(out, first_date) := state in
  let out := if negb first_date then out ++ str "," else out in
  (out ++ [dquote] ++ escape_json_string date ++ [dquote], false).

(** The body of the outer loop, over the students; the state is the
    text written so far and the flag [first_student]. *)
Definition write_student (state : cstring * bool) (pair : Z * vector)
  : cstring * bool :=
  let '(out, first_student) := state in
  let out := if negb first_student then out ++ str "," else out in
  let out := out ++ [dquote] ++ to_string (fst pair) ++ lit "':[" in
  let out := fst (fold_left write_date (snd pair) (out, true)) in
  (out ++ str "]", false).

(** Everything [saveData] writes to [outFile]. *)
Definition encode (attendance : Store) : cstring :=
  let out := str "{" in
  let out := fst (fold_left write_student attendance (out, true)) in
  out ++ str "}".

Record save_outcome : Type := {
  saved : bool;
  save_cerr : list diagnostic;
  save_file : option cstring      (* the new file content, if written *)
}.

(** [saveData]; [can_open] tells whether the file opens for writing. *)
Definition saveData (can_open : bool) (attendance : Store) : save_outcome :=
  if negb can_open then Build_save_outcome false [CouldNotOpenForWriting] None
  else Build_save_outcome true [] (Some (encode attendance)).

(** ** The command dispatch of [main]

    [main] calls one member function on the store; only
    [markAttendance] is a non-[const] member. *)

Inductive command : Type :=
| Mark (rollNo : Z) (date : cstring)
| View (rollNo : Z)
| Stats.

Definition run_command (c : command) (attendance : Store) : cstring * Store :=
  match c with
  | Mark rollNo date => markAttendance rollNo date attendance
  | View rollNo => (viewAttendance rollNo attendance, attendance)
  | Stats => (getOverallStats attendance, attendance)
  end.

(** The store after a sequence of [markAttendance] calls. *)
Definition mark_all (calls : list (Z * cstring)) (attendance : Store) : Store :=
  fold_left (fun st call => snd (markAttendance (fst call) (snd call) st))
            calls attendance.

(** ** Vocabulary of the specification *)

(** The DateSet of a student; empty for a student the store lacks. *)
Definition date_set (id : Z) (st : Store) : vector := StdMap.get id st.

(** Ascending and duplicate-free. *)
Definition valid_dates (v : vector) : Prop := Sorted str_le v /\ NoDup v.

Definition valid_store (st : Store) : Prop :=
  forall id v, StdMap.find id st = Some v -> valid_dates v.

(** Same ids, and per id the same dates as unordered collections. *)
Definition store_equiv (s1 s2 : Store) : Prop :=
  forall id,
    match StdMap.find id s1, StdMap.find id s2 with
    | Some v1, Some v2 => forall d, In d v1 <-> In d v2
    | None, None => True
    | _, _ => False
    end.

(** All dates of all students, and the number of (student, date)
    pairs. *)
Definition all_dates (st : Store) : list cstring := flat_map snd st.
Definition total_entries (st : Store) : nat :=
  list_sum (List.map (fun pair => length (snd pair)) st).

(** The number of distinct elements of a list. *)
Definition count_distinct {A : Type} (dec : forall x y : A, {x = y} + {x <> y})
    (l : list A) : nat :=
  length (nodup dec l).

(** [sep]-separated concatenation. *)
Fixpoint join (sep : cstring) (l : list cstring) : cstring :=
  match l with
  | [] => []
  | [x] => x
  | x :: l' => x ++ sep ++ join sep l'
  end.

Definition quoted (s : cstring) : cstring := [dquote] ++ s ++ [dquote].

(** A date as both [viewAttendance] and [saveData] print it. *)
Definition quoted_date (d : cstring) : cstring := quoted (escape_json_string d).

Definition view_success (id : Z) (dates : vector) : cstring :=
  lit "{'status': 'success', 'roll_no': " ++ to_string id
    ++ lit ", 'dates': [" ++ join (str ", ") (List.map quoted_date dates)
    ++ str "]}".

(** The five escapes, character by character. *)
Definition escape_char (c : ascii) : cstring :=
  if Ascii.eqb c dquote then [backslash; dquote]
  else if Ascii.eqb c backslash then [backslash; backslash]
  else if Ascii.eqb c newline then [backslash; "n"%char]
  else if Ascii.eqb c carriage_return then [backslash; "r"%char]
  else if Ascii.eqb c tab then [backslash; "t"%char]
  else [c].

(** One student in the file format. *)
Definition encode_entry (pair : Z * vector) : cstring :=
  quoted (to_string (fst pair)) ++ str ":["
    ++ join (str ",") (List.map quoted_date (snd pair)) ++ str "]".

(** *** The decoder as the specification describes it *)

(** Splitting at the commas that occur where both nesting counters are
    0: the comma-terminated segments and the last segment.  [cur] is the
    segment read so far. *)
Fixpoint split_top (s : cstring) (counts : Z * Z) (cur : cstring)
  : list cstring * cstring :=
  match s with
  | [] => ([], cur)
  | c :: s' =>
      let counts := count_nesting c counts in
      if Ascii.eqb c ","%char && (fst counts =? 0) && (snd counts =? 0)
      then (cur :: fst (split_top s' counts []), snd (split_top s' counts []))
      else split_top s' counts (cur ++ [c])
  end.

Definition top_level_segments (body : cstring) : list cstring * cstring :=
  split_top body (0, 0) [].

(** All top-level entries, the last one included. *)
Definition top_level_entries (body : cstring) : list cstring :=
  fst (top_level_segments body) ++ [snd (top_level_segments body)].

(** The comma-terminated segments, processed in order. *)
Fixpoint run_segments (segs : list cstring) (attendance : Store)
  : result Store :=
  match segs with
  | [] => Ok attendance
  | seg :: segs' => bind (process_segment seg attendance) (run_segments segs')
  end.

(** The id text of an entry: what precedes its first colon, less one
    layer of quotes. *)
Definition entry_key (segment : cstring) : option cstring :=
  match find_char ":"%char segment with
  | Some colon_pos => Some (unquote_key (substr 0 colon_pos segment))
  | None => None
  end.

(** The value text of an entry: what follows its first colon. *)
Definition entry_value (segment : cstring) : option cstring :=
  match find_char ":"%char segment with
  | Some colon_pos => Some (substr_from (colon_pos + 1) segment)
  | None => None
  end.

Definition has_unparseable_id (body : cstring) : Prop :=
  exists seg key e,
    In seg (top_level_entries body) /\ entry_key seg = Some key /\
    stoi key = Throw e.

(** The outcomes of [decode]. *)
Definition no_data : load_outcome :=
  Build_load_outcome false [] StdMap.empty.
Definition parse_error (d : diagnostic) : load_outcome :=
  Build_load_outcome false [d] StdMap.empty.
Definition decoded (st : Store) : load_outcome :=
  Build_load_outcome true [] st.

(** *** Histories of the store *)

Inductive operation : Type :=
| OpLoad (file : option cstring)
| OpMark (rollNo : Z) (date : cstring).

Definition apply_operation (st : Store) (op : operation) : Store :=
  match op with
  | OpLoad file => load_store (loadData file st)
  | OpMark rollNo date => snd (markAttendance rollNo date st)
  end.

(** The store after a sequence of loads and marks on the store the
    constructor builds. *)
Definition replay (ops : list operation) : Store :=
  fold_left apply_operation ops StdMap.empty.

(** *** Vocabulary of the round trip *)

(** A store all of whose results keep the keys in order. *)
Definition result_ok (r : result Store) : Prop :=
  match r with
  | Ok st => StdMap.ok st
  | Throw _ => True
  end.

Definition is_digit (c : ascii) : bool :=
  match digit_value c with Some _ => true | None => false end.

(** The characters [std::to_string] can produce. *)
Definition is_id_char (c : ascii) : bool :=
  Ascii.eqb c "-"%char || is_digit c.

(** The characters the scanning loop counts. *)
Definition is_nesting (c : ascii) : bool :=
  mem_char c ["{"%char; "}"%char; "["%char; "]"%char].

(** A character the file format carries unchanged inside a date: no
    comma, no brace or bracket, and none of the five escaped
    characters. *)
Definition plain_char (c : ascii) : bool :=
  negb (mem_char c [","%char; "{"%char; "}"%char; "["%char; "]"%char;
                    dquote; backslash; newline; carriage_return; tab]).

Definition plain_date (d : cstring) : Prop := forallb plain_char d = true.

Definition plain_store (st : Store) : Prop :=
  forall id v d, StdMap.find id st = Some v -> In d v -> plain_date d.

Definition keys_in_range (st : Store) : Prop :=
  forall id, In id (StdMap.keys st) -> in_int_range id.

(** The text between the brackets of an entry. *)
Definition dates_text (dates : vector) : cstring :=
  join (str ",") (List.map quoted_date dates).

(** The digits of a decimal number as characters. *)
Definition uint_chars (d : Decimal.uint) : cstring :=
  list_ascii_of_string (NilEmpty.string_of_uint d).

(** All entries of [att] have keys below [k]. *)
Definition below (k : Z) (att : Store) : Prop :=
  Forall (fun pair => fst pair < k) att.

(** What the round trip needs of one student. *)
Definition entry_ok (pair : Z * vector) : Prop :=
  in_int_range (fst pair) /\ Sorted str_le (snd pair)
  /\ Forall plain_date (snd pair).

(** A valid store with a comma inside a date. *)
Definition comma_store : Store := [(1, [str "a,b"])].

(** Two students with the same single date. *)
Definition two_students (d : cstring) : Store := [(1, [d]); (2, [d])].

(** ** [main] *)

(** What one run of the program leaves behind: the line on
    [std::cout], the exit code, the lines on [std::cerr] and the content
    of the data file ([None]: no readable file). *)
Record process_result : Type := {
  proc_stdout : cstring;
  proc_exit : Z;
  proc_cerr : list diagnostic;
  proc_file : option cstring
}.

Definition usage_error : cstring :=
  lit "{'status': 'error', 'message': 'Usage: ./attendance_app <command> [args]'}".
Definition usage_mark : cstring :=
  lit "{'status': 'error', 'message': 'Usage: ./attendance_app mark <roll_no> <date>'}".
Definition usage_view : cstring :=
  lit "{'status': 'error', 'message': 'Usage: ./attendance_app view <roll_no>'}".
Definition usage_stats : cstring :=
  lit "{'status': 'error', 'message': 'Usage: ./attendance_app stats'}".
Definition invalid_mark_args (what_e : cstring) : cstring :=
  lit "{'status': 'error', 'message': 'Invalid roll number or date format: "
    ++ what_e ++ lit "'}".
Definition invalid_view_args (what_e : cstring) : cstring :=
  lit "{'status': 'error', 'message': 'Invalid roll number format: "
    ++ what_e ++ lit "'}".
Definition unknown_command (command : cstring) : cstring :=
  lit "{'status': 'error', 'message': 'Unknown command: " ++ command ++ lit "'}".

(** [std::cout << result_json << std::endl; return 0;] for a run that
    does not save. *)
Definition respond (result_json : cstring) (load : load_outcome)
    (file : option cstring) : process_result :=
  Build_process_result (result_json ++ [newline]) 0 (load_cerr load) file.

(** [main].  [what] is the text of [e.what()], which the standard
    library chooses; [argv] holds the program name and the arguments
    ([argc] is its length); [file] is the content of the data file
    before the run ([None] when it cannot be opened for reading) and
    [can_write] tells whether it opens for writing.  The static store is
    empty when [loadData] is called. *)
Definition main (what : exception -> cstring) (argv : list cstring)
    (file : option cstring) (can_write : bool) : process_result :=
  let load := loadData file StdMap.empty in
  let system := load_store load in
  let argc := length argv in
  if (argc <? 2)%nat then
    Build_process_result (usage_error ++ [newline]) 1 (load_cerr load) file
  else
    let command := nth 1 argv [] in
    if cstring_eqb command (str "mark") then
      if negb (argc =? 4)%nat then respond usage_mark load file
      else
        match stoi (nth 2 argv []) with
        | Ok rollNo =>
            let date := nth 3 argv [] in
            let marked := markAttendance rollNo date system in
            let save := saveData can_write (snd marked) in
            Build_process_result
              (fst marked ++ [newline]) 0
              (load_cerr load ++ save_cerr save)
              (match save_file save with
               | Some text => Some text
               | None => file
               end)
        | Throw e => respond (invalid_mark_args (what e)) load file
        end
    else if cstring_eqb command (str "view") then
      if negb (argc =? 3)%nat then respond usage_view load file
      else
        match stoi (nth 2 argv []) with
        | Ok rollNo => respond (viewAttendance rollNo system) load file
        | Throw e => respond (invalid_view_args (what e)) load file
        end
    else if cstring_eqb command (str "stats") then
      if negb (argc =? 2)%nat then respond usage_stats load file
      else respond (getOverallStats system) load file
    else respond (unknown_command command) load file.

(** *** Vocabulary of the further properties *)

(** The DateSet after [markAttendance id date] on the DateSet [v]. *)
Definition marked_dates (date : cstring) (v : vector) : vector :=
  if vector_contains date v then v else std_sort (v ++ [date]).

(** Every DateSet of the store is in ascending order. *)
Definition sorted_store (st : Store) : Prop :=
  forall id v, StdMap.find id st = Some v -> Sorted str_le v.

(** The store with every DateSet sorted. *)
Definition sort_all (st : Store) : Store :=
  List.map (fun pair => (fst pair, std_sort (snd pair))) st.

(** An inverse of [escape_json_string]; the program has no such
    function, it serves to show that escaping loses nothing. *)
Fixpoint unescape (s : cstring) : cstring :=
  match s with
  | [] => []
  | c :: s' =>
      if Ascii.eqb c backslash then
        match s' with
        | [] => [c]
        | x :: s'' =>
            (if Ascii.eqb x "n"%char then newline
             else if Ascii.eqb x "r"%char then carriage_return
             else if Ascii.eqb x "t"%char then tab
             else x) :: unescape s''
        end
      else c :: unescape s'
  end.

(** No newline, carriage return or tab. *)
Definition one_line (s : cstring) : Prop :=
  Forall (fun c => c <> newline /\ c <> carriage_return /\ c <> tab) s.

(** The run is a [mark] command with a roll number [std::stoi]
    accepts. *)
Definition is_mark_run (argv : list cstring) : Prop :=
  exists prog arg date id,
    argv = [prog; str "mark"; arg; date] /\ stoi arg = Ok id.

(** *** Decimal numerals

    How an id or a count reads in an answer, said without the printing
    function of the program. *)

(** The value of a decimal digit. *)
Definition digit_of (c : ascii) : option Z :=
  if Ascii.eqb c "0"%char then Some 0
  else if Ascii.eqb c "1"%char then Some 1
  else if Ascii.eqb c "2"%char then Some 2
  else if Ascii.eqb c "3"%char then Some 3
  else if Ascii.eqb c "4"%char then Some 4
  else if Ascii.eqb c "5"%char then Some 5
  else if Ascii.eqb c "6"%char then Some 6
  else if Ascii.eqb c "7"%char then Some 7
  else if Ascii.eqb c "8"%char then Some 8
  else if Ascii.eqb c "9"%char then Some 9
  else None.

(** The number a string of digits denotes, most significant digit
    first; [None] when a character is no digit. *)
Fixpoint numeral_value (ds : cstring) (acc : Z) : option Z :=
  match ds with
  | [] => Some acc
  | c :: ds' =>
      match digit_of c with
      | Some d => numeral_value ds' (10 * acc + d)
      | None => None
      end
  end.

(** [ds] is the numeral of the natural number [n]: at least one digit,
    no leading zero except for the numeral 0 itself. *)
Definition unsigned_numeral (ds : cstring) (n : Z) : Prop :=
  ds <> [] /\ (forall ds', ds = "0"%char :: ds' -> ds' = [])
  /\ numeral_value ds 0 = Some n.

(** [t] is the decimal text of the integer [z]: the numeral of [z], or
    a minus sign and the numeral of [- z] when [z] is negative. *)
Definition decimal_text (t : cstring) (z : Z) : Prop :=
  match t with
  | [] => False
  | c :: ds =>
      if Ascii.eqb c "-"%char then z < 0 /\ unsigned_numeral ds (- z)
      else 0 <= z /\ unsigned_numeral t z
  end.

(** The dates [1], [11], [111], ... up to [n] characters: ascending and
    pairwise different. *)
Definition tallies (n : nat) : vector :=
  List.map (fun k => repeat "1"%char k) (seq 1 n).

(** One student with [2^31] different dates. *)
Definition crowded_store : Store := [(1, tallies (Z.to_nat 2147483648))].

(** Case analysis over the 256 characters. *)
Ltac char_cases c :=
  destruct c as [[] [] [] [] [] [] [] []]; vm_compute;
  try discriminate; intros; repeat split; try reflexivity; try discriminate.

(** * Properties *)

(** ** The order on strings *)

Lemma N_of_ascii_inj : forall x y, N_of_ascii x = N_of_ascii y -> x = y.
Proof.
  intros x y H.
  rewrite <- (ascii_N_embedding x), <- (ascii_N_embedding y).
  now rewrite H.
Qed.

Lemma str_compare_refl : forall a, str_compare a a = Eq.
Proof.
  induction a as [|x a IH]; simpl; [reflexivity|].
  now rewrite N.compare_refl.
Qed.

Lemma str_compare_eq : forall a b, str_compare a b = Eq -> a = b.
Proof.
  induction a as [|x a IH]; destruct b as [|y b]; simpl; try discriminate; auto.
  destruct (N.compare_spec (N_of_ascii x) (N_of_ascii y)) as [E|L|G];
    try discriminate.
  intros H. apply N_of_ascii_inj in E. apply IH in H. now subst.
Qed.

Lemma str_compare_antisym :
  forall a b, str_compare b a = CompOpp (str_compare a b).
Proof.
  induction a as [|x a IH]; destruct b as [|y b]; simpl; auto.
  rewrite (N.compare_antisym (N_of_ascii x) (N_of_ascii y)).
  destruct (N.compare (N_of_ascii x) (N_of_ascii y)); simpl; auto.
Qed.

Lemma str_compare_lt_trans :
  forall a b c,
    str_compare a b = Lt -> str_compare b c = Lt -> str_compare a c = Lt.
Proof.
  induction a as [|x a IH]; destruct b as [|y b]; destruct c as [|z c];
    simpl; try discriminate; auto.
  destruct (N.compare_spec (N_of_ascii x) (N_of_ascii y)) as [E1|L1|G1];
    destruct (N.compare_spec (N_of_ascii y) (N_of_ascii z)) as [E2|L2|G2];
    try discriminate; intros H1 H2.
  - rewrite E1, E2, N.compare_refl. eauto.
  - rewrite E1. now apply N.compare_lt_iff in L2 as ->.
  - rewrite <- E2. now apply N.compare_lt_iff in L1 as ->.
  - assert (L : (N_of_ascii x < N_of_ascii z)%N) by lia.
    now apply N.compare_lt_iff in L as ->.
Qed.

Lemma str_ltb_irrefl : forall a, str_ltb a a = false.
Proof. intros a. unfold str_ltb. now rewrite str_compare_refl. Qed.

Lemma str_lt_trans : forall a b c, str_lt a b -> str_lt b c -> str_lt a c.
Proof.
  unfold str_lt, str_ltb. intros a b c H1 H2.
  destruct (str_compare a b) eqn:E1; try discriminate.
  destruct (str_compare b c) eqn:E2; try discriminate.
  now rewrite (str_compare_lt_trans _ _ _ E1 E2).
Qed.

Lemma str_lt_le : forall a b, str_lt a b -> str_le a b.
Proof.
  unfold str_lt, str_le, str_ltb. intros a b H.
  rewrite (str_compare_antisym a b).
  destruct (str_compare a b); simpl; auto; discriminate.
Qed.

Lemma str_le_cases : forall a b, str_le a b <-> str_lt a b \/ a = b.
Proof.
  intros a b. split.
  - unfold str_le, str_lt, str_ltb. rewrite (str_compare_antisym a b).
    destruct (str_compare a b) eqn:E; simpl; intros H; try discriminate; auto.
    right. now apply str_compare_eq.
  - intros [H| ->]; [now apply str_lt_le|apply str_ltb_irrefl].
Qed.

Lemma str_le_refl : forall a, str_le a a.
Proof. intros a. apply str_ltb_irrefl. Qed.

Lemma str_le_trans : forall a b c, str_le a b -> str_le b c -> str_le a c.
Proof.
  intros a b c H1 H2. apply str_le_cases in H1, H2. apply str_le_cases.
  destruct H1 as [H1| ->], H2 as [H2| ->]; auto.
  left. eapply str_lt_trans; eauto.
Qed.

Lemma str_le_antisym : forall a b, str_le a b -> str_le b a -> a = b.
Proof.
  intros a b H1 H2. apply str_le_cases in H1. destruct H1 as [H1|]; auto.
  unfold str_le in H2. unfold str_lt in H1. congruence.
Qed.

Lemma str_not_lt_le : forall a b, str_ltb a b = false -> str_le b a.
Proof. auto. Qed.

Lemma cstring_eqb_eq : forall a b, cstring_eqb a b = true <-> a = b.
Proof.
  induction a as [|x a IH]; destruct b as [|y b]; simpl; split;
    try discriminate; auto.
  - rewrite andb_true_iff, Ascii.eqb_eq, IH. now intros [-> ->].
  - intros [= -> ->]. rewrite andb_true_iff, Ascii.eqb_eq, IH. auto.
Qed.

Lemma vector_contains_In :
  forall x v, vector_contains x v = true <-> In x v.
Proof.
  intros x v. unfold vector_contains. rewrite existsb_exists. split.
  - intros [y [Hy E]]. apply cstring_eqb_eq in E. now subst.
  - intros H. exists x. split; auto. now apply cstring_eqb_eq.
Qed.

Lemma vector_contains_false :
  forall x v, vector_contains x v = false <-> ~ In x v.
Proof.
  intros x v. rewrite <- vector_contains_In.
  destruct (vector_contains x v); split; congruence.
Qed.

(** ** [std::sort] *)

Lemma sort_insert_perm : forall x v, Permutation (sort_insert x v) (x :: v).
Proof.
  induction v as [|y v IH]; simpl; auto.
  destruct (str_ltb x y); auto.
  rewrite IH. apply perm_swap.
Qed.

Lemma std_sort_perm : forall v, Permutation (std_sort v) v.
Proof.
  induction v as [|x v IH]; simpl; auto.
  rewrite sort_insert_perm. now constructor.
Qed.

Lemma sort_insert_sorted :
  forall x v, Sorted str_le v -> Sorted str_le (sort_insert x v).
Proof.
  induction v as [|y v IH]; simpl; intros H.
  - repeat constructor.
  - inversion H as [|? ? Hs Hh]; subst.
    destruct (str_ltb x y) eqn:E.
    + constructor; auto. constructor. now apply str_lt_le.
    + constructor; auto.
      destruct v as [|z v]; simpl in *.
      * constructor. exact E.
      * destruct (str_ltb x z); constructor; auto.
        now inversion Hh.
Qed.

Lemma std_sort_sorted : forall v, Sorted str_le (std_sort v).
Proof.
  induction v as [|x v IH]; simpl; [constructor|].
  now apply sort_insert_sorted.
Qed.

Lemma sort_insert_sorted_id :
  forall x v, Sorted str_le (x :: v) -> sort_insert x v = x :: v.
Proof.
  induction v as [|y v IH]; simpl; intros H; auto.
  inversion H as [|? ? Hs Hh]; subst. inversion Hh as [|? ? Hxy]; subst.
  destruct (str_ltb x y) eqn:E; auto.
  assert (x = y) by (apply str_le_antisym; auto). subst y.
  now rewrite IH.
Qed.

Lemma std_sort_sorted_id : forall v, Sorted str_le v -> std_sort v = v.
Proof.
  induction v as [|x v IH]; simpl; intros H; auto.
  rewrite IH by now inversion H.
  now apply sort_insert_sorted_id.
Qed.

(** The sorted arrangement of a vector is unique: whatever algorithm
    [std::sort] runs, it returns what [std_sort] returns. *)
Lemma sorted_permutation_unique :
  forall v w, Sorted str_le v -> Sorted str_le w -> Permutation v w -> v = w.
Proof.
  intros v w Hv Hw.
  apply Sorted_StronglySorted in Hv; [|exact str_le_trans].
  apply Sorted_StronglySorted in Hw; [|exact str_le_trans].
  revert w Hw. induction Hv as [|x v Hv IH Hx]; intros w Hw P.
  - apply Permutation_nil in P. now subst.
  - destruct Hw as [|y w Hw Hy].
    + apply Permutation_sym, Permutation_nil in P. discriminate.
    + assert (x = y).
      { assert (I1 : In x (y :: w)) by (eapply Permutation_in; eauto; now left).
        assert (I2 : In y (x :: v))
          by (eapply Permutation_in; [apply Permutation_sym|]; eauto; now left).
        rewrite Forall_forall in Hx, Hy.
        destruct I1 as [|I1]; auto. destruct I2 as [|I2]; auto.
        apply str_le_antisym; auto. }
      subst y. f_equal. apply IH; auto.
      eapply Permutation_cons_inv; eauto.
Qed.

(** ** [std::map] *)

Lemma find_insert_same :
  forall k v m, StdMap.find k (StdMap.insert k v m) = Some v.
Proof.
  induction m as [|[k' v'] m IH]; simpl.
  - now rewrite Z.eqb_refl.
  - destruct (k <? k') eqn:L; simpl.
    + now rewrite Z.eqb_refl.
    + destruct (k =? k') eqn:E; simpl.
      * now rewrite Z.eqb_refl.
      * now rewrite E.
Qed.

Lemma find_insert_other :
  forall k k' v m,
    k <> k' -> StdMap.find k' (StdMap.insert k v m) = StdMap.find k' m.
Proof.
  intros k k' v m N.
  assert (F : (k' =? k) = false) by (apply Z.eqb_neq; congruence).
  induction m as [|[k0 v0] m IH]; simpl.
  - now rewrite F.
  - destruct (k <? k0) eqn:L; simpl.
    + now rewrite F.
    + destruct (k =? k0) eqn:E; simpl.
      * apply Z.eqb_eq in E. subst k0. now rewrite F.
      * now rewrite IH.
Qed.

Lemma find_touch_same :
  forall k m, StdMap.find k (StdMap.touch k m) = Some (StdMap.get k m).
Proof.
  intros k m. unfold StdMap.touch, StdMap.get.
  destruct (StdMap.find k m) eqn:E; auto.
  apply find_insert_same.
Qed.

Lemma find_touch_other :
  forall k k' m, k <> k' -> StdMap.find k' (StdMap.touch k m) = StdMap.find k' m.
Proof.
  intros k k' m N. unfold StdMap.touch.
  destruct (StdMap.find k m); auto.
  now apply find_insert_other.
Qed.

Lemma get_touch :
  forall k k' m, StdMap.get k' (StdMap.touch k m) = StdMap.get k' m.
Proof.
  intros k k' m. destruct (Z.eq_dec k k') as [->|N].
  - unfold StdMap.get at 1. now rewrite find_touch_same.
  - unfold StdMap.get. now rewrite find_touch_other.
Qed.

Lemma touch_present :
  forall k m v, StdMap.find k m = Some v -> StdMap.touch k m = m.
Proof. intros k m v H. unfold StdMap.touch. now rewrite H. Qed.

Lemma touch_idem :
  forall k m, StdMap.touch k (StdMap.touch k m) = StdMap.touch k m.
Proof. intros k m. eapply touch_present, find_touch_same. Qed.

Lemma find_push_back_same :
  forall k d m,
    StdMap.find k (push_back_at k d m) = Some (StdMap.get k m ++ [d]).
Proof.
  intros k d m. unfold push_back_at.
  now rewrite find_insert_same, get_touch.
Qed.

Lemma find_push_back_other :
  forall k k' d m,
    k <> k' -> StdMap.find k' (push_back_at k d m) = StdMap.find k' m.
Proof.
  intros k k' d m N. unfold push_back_at.
  now rewrite find_insert_other, find_touch_other.
Qed.

Lemma find_sort_at_same :
  forall k m, StdMap.find k (sort_at k m) = Some (std_sort (StdMap.get k m)).
Proof.
  intros k m. unfold sort_at. now rewrite find_insert_same, get_touch.
Qed.

Lemma find_sort_at_other :
  forall k k' m, k <> k' -> StdMap.find k' (sort_at k m) = StdMap.find k' m.
Proof.
  intros k k' m N. unfold sort_at.
  now rewrite find_insert_other, find_touch_other.
Qed.

Lemma keys_insert_In :
  forall x k v m,
    In x (StdMap.keys (StdMap.insert k v m)) -> x = k \/ In x (StdMap.keys m).
Proof.
  induction m as [|[k' v'] m IH]; simpl.
  - intros [H|[]]; auto.
  - destruct (k <? k') eqn:L; simpl; [intuition|].
    destruct (k =? k') eqn:E; simpl; intuition.
Qed.

Lemma ok_insert : forall k v m, StdMap.ok m -> StdMap.ok (StdMap.insert k v m).
Proof.
  unfold StdMap.ok.
  induction m as [|[k' v'] m IH]; simpl; intros H.
  - repeat constructor.
  - inversion H as [|? ? Hs Hf]; subst.
    destruct (k <? k') eqn:L; simpl.
    + apply Z.ltb_lt in L. constructor; auto.
      constructor; auto.
      eapply Forall_impl; [|exact Hf]. intros; simpl in *; lia.
    + destruct (k =? k') eqn:E; simpl.
      * apply Z.eqb_eq in E. subst. now constructor.
      * apply Z.ltb_ge in L. apply Z.eqb_neq in E.
        constructor; auto.
        apply Forall_forall. intros x Hx.
        apply keys_insert_In in Hx. destruct Hx as [->|Hx]; [lia|].
        rewrite Forall_forall in Hf. auto.
Qed.

Lemma ok_touch : forall k m, StdMap.ok m -> StdMap.ok (StdMap.touch k m).
Proof.
  intros k m H. unfold StdMap.touch.
  destruct (StdMap.find k m); auto using ok_insert.
Qed.

Lemma ok_push_back_at :
  forall k d m, StdMap.ok m -> StdMap.ok (push_back_at k d m).
Proof. intros. unfold push_back_at. auto using ok_insert, ok_touch. Qed.

Lemma ok_sort_at : forall k m, StdMap.ok m -> StdMap.ok (sort_at k m).
Proof. intros. unfold sort_at. auto using ok_insert, ok_touch. Qed.

(** ** [markAttendance] *)

Lemma markAttendance_fresh :
  forall id date st,
    ~ In date (date_set id st) ->
    markAttendance id date st =
      (mark_success id date,
       sort_at id (push_back_at id date (StdMap.touch id st))).
Proof.
  intros id date st H. unfold markAttendance.
  rewrite get_touch.
  apply vector_contains_false in H. unfold date_set in H. now rewrite H.
Qed.

Lemma markAttendance_present :
  forall id date st,
    In date (date_set id st) ->
    markAttendance id date st = (mark_duplicate id date, StdMap.touch id st).
Proof.
  intros id date st H. unfold markAttendance.
  rewrite get_touch.
  apply vector_contains_In in H. unfold date_set in H. now rewrite H.
Qed.

Lemma date_set_after_fresh_mark :
  forall id date st,
    date_set id (sort_at id (push_back_at id date (StdMap.touch id st)))
    = std_sort (date_set id st ++ [date]).
Proof.
  intros id date st. unfold date_set at 1, StdMap.get at 1.
  rewrite find_sort_at_same. unfold StdMap.get at 1.
  now rewrite find_push_back_same, get_touch.
Qed.

Lemma mark_results_differ :
  forall id date id' date', mark_success id date <> mark_duplicate id' date'.
Proof.
  intros id date id' date' H.
  unfold mark_success, mark_duplicate in H. cbn in H. discriminate H.
Qed.

(** ** The DateSet invariant *)

Lemma valid_dates_nil : valid_dates [].
Proof. split; constructor. Qed.

Lemma valid_store_touch :
  forall id st, valid_store st -> valid_store (StdMap.touch id st).
Proof.
  intros id st H k v F. destruct (Z.eq_dec id k) as [->|N].
  - rewrite find_touch_same in F. injection F as <-.
    unfold StdMap.get. destruct (StdMap.find k st) eqn:E; eauto.
    apply valid_dates_nil.
  - rewrite find_touch_other in F by auto. eauto.
Qed.

Lemma valid_dates_get :
  forall id st, valid_store st -> valid_dates (date_set id st).
Proof.
  intros id st H. unfold date_set, StdMap.get.
  destruct (StdMap.find id st) eqn:E; eauto. apply valid_dates_nil.
Qed.

Lemma markAttendance_valid :
  forall id date st,
    valid_store st -> valid_store (snd (markAttendance id date st)).
Proof.
  intros id date st H.
  destruct (in_dec cstring_dec date (date_set id st)) as [I|I].
  - rewrite markAttendance_present by auto. simpl.
    now apply valid_store_touch.
  - rewrite markAttendance_fresh by auto. simpl.
    intros k v F. destruct (Z.eq_dec id k) as [->|N].
    + rewrite find_sort_at_same in F. injection F as <-.
      fold (date_set k (push_back_at k date (StdMap.touch k st))).
      unfold date_set at 1, StdMap.get.
      rewrite find_push_back_same, get_touch.
      destruct (valid_dates_get k st H) as [_ ND].
      split; [apply std_sort_sorted|].
      eapply Permutation_NoDup; [apply Permutation_sym, std_sort_perm|].
      eapply Permutation_NoDup; [apply Permutation_cons_append|].
      constructor; auto.
    + rewrite find_sort_at_other, find_push_back_other, find_touch_other in F
        by auto.
      eauto.
Qed.

Lemma mark_all_valid :
  forall calls st, valid_store st -> valid_store (mark_all calls st).
Proof.
  induction calls as [|c calls IH]; simpl; intros st H; auto.
  apply IH. now apply markAttendance_valid.
Qed.

(** C2.  After any sequence of [markAttendance] calls on the empty
    store, every student's DateSet is in ascending order and has no
    duplicate. *)
Theorem marks_keep_dates_sorted_unique :
  forall (calls : list (Z * cstring)) (id : Z) (dates : vector),
    StdMap.find id (mark_all calls StdMap.empty) = Some dates ->
    Sorted str_le dates /\ NoDup dates.
Proof.
  intros calls id dates F.
  apply (mark_all_valid calls StdMap.empty) with (id := id); auto.
  intros k v E. discriminate E.
Qed.

Lemma marks_keep_dates_sorted_unique_witness :
  let dates := [str "2025-07-01"; str "2025-07-02"] in
  Sorted str_le dates /\ NoDup dates.
Proof.
  apply (marks_keep_dates_sorted_unique
           [(101, str "2025-07-02"); (102, str "2025-07-01");
            (101, str "2025-07-01"); (101, str "2025-07-02")] 101).
  reflexivity.
Defined.

(** ** Frame properties *)

Lemma markAttendance_other :
  forall id1 id2 date st,
    id1 <> id2 ->
    StdMap.find id2 (snd (markAttendance id1 date st)) = StdMap.find id2 st.
Proof.
  intros id1 id2 date st N.
  destruct (in_dec cstring_dec date (date_set id1 st)) as [I|I].
  - rewrite markAttendance_present by auto. simpl.
    now apply find_touch_other.
  - rewrite markAttendance_fresh by auto. simpl.
    now rewrite find_sort_at_other, find_push_back_other, find_touch_other.
Qed.

(** C10.  [viewAttendance] and [getOverallStats] leave the store as it
    is, and [markAttendance] on one student leaves every other
    student's entry (its presence and its DateSet) as it is. *)
Theorem commands_frame :
  forall (st : Store) (id1 id2 : Z) (date : cstring),
    snd (run_command (View id1) st) = st /\
    snd (run_command Stats st) = st /\
    (id1 <> id2 ->
     StdMap.find id2 (snd (run_command (Mark id1 date) st)) = StdMap.find id2 st
     /\ date_set id2 (snd (run_command (Mark id1 date) st)) = date_set id2 st).
Proof.
  intros st id1 id2 date. repeat split; auto.
  - simpl. now apply markAttendance_other.
  - simpl. unfold date_set, StdMap.get. now rewrite markAttendance_other.
Qed.

Lemma commands_frame_witness :
  let st := [(101, [str "2025-07-01"]); (102, [str "2025-07-03"])] in
  let st' := snd (run_command (Mark 101 (str "2025-07-02")) st) in
  StdMap.find 102 st' = StdMap.find 102 st /\ date_set 102 st' = date_set 102 st.
Proof.
  apply (commands_frame [(101, [str "2025-07-01"]); (102, [str "2025-07-03"])]
           101 102 (str "2025-07-02")).
  discriminate.
Defined.

(** ** [viewAttendance] *)

Lemma view_loop_spec :
  forall rest pre ss,
    view_loop (pre ++ rest) (length rest) (length pre) ss
    = ss ++ join (str ", ") (List.map quoted_date rest).
Proof.
  induction rest as [|d rest IH]; intros pre ss.
  - simpl. now rewrite app_nil_r.
  - cbn [length view_loop].
    rewrite nth_middle.
    replace (pre ++ d :: rest) with ((pre ++ [d]) ++ rest)
      by now rewrite <- app_assoc.
    replace (S (length pre)) with (length (pre ++ [d]))
      by (rewrite length_app; simpl; lia).
    rewrite IH.
    rewrite !length_app. simpl length.
    destruct rest as [|d' rest].
    + match goal with
      | |- context [Nat.ltb ?a ?b] =>
          replace (Nat.ltb a b) with false
            by (symmetry; apply Nat.ltb_ge; simpl; lia)
      end.
      simpl. rewrite !app_nil_r. reflexivity.
    + match goal with
      | |- context [Nat.ltb ?a ?b] =>
          replace (Nat.ltb a b) with true
            by (symmetry; apply Nat.ltb_lt; simpl; lia)
      end.
      change (join (str ", ") (List.map quoted_date (d :: d' :: rest)))
        with (quoted_date d ++ str ", "
                ++ join (str ", ") (List.map quoted_date (d' :: rest))).
      generalize (join (str ", ") (List.map quoted_date (d' :: rest))).
      intros j. unfold quoted_date, quoted.
      now rewrite <- !app_assoc.
Qed.

(** ** [escape_json_string] and [encode] *)

Lemma escape_step_spec :
  forall acc c, escape_step acc c = acc ++ escape_char c.
Proof.
  intros acc c. unfold escape_step, escape_char.
  repeat match goal with
  | |- context [if ?b then _ else _] => destruct b; try reflexivity
  end.
Qed.

Lemma escape_fold_spec :
  forall s acc, fold_left escape_step s acc = acc ++ flat_map escape_char s.
Proof.
  induction s as [|c s IH]; intros acc; simpl.
  - now rewrite app_nil_r.
  - now rewrite IH, escape_step_spec, <- app_assoc.
Qed.

Lemma escape_json_string_spec :
  forall s, escape_json_string s = flat_map escape_char s.
Proof. intros s. apply (escape_fold_spec s []). Qed.

Section SeparatorLoop.
(** The loops of [saveData] that write a comma before every item but
    the first. *)
Variable A : Type.
Variable item : A -> cstring.
Variable step : cstring * bool -> A -> cstring * bool.
Hypothesis step_eq :
  forall out first x,
    step (out, first) x
    = ((if negb first then out ++ str "," else out) ++ item x, false).

Lemma separator_loop_rest :
  forall l out,
    fold_left step l (out, false)
    = (out ++ flat_map (fun x => str "," ++ item x) l, false).
Proof.
  induction l as [|x l IH]; intros out; simpl.
  - now rewrite app_nil_r.
  - rewrite step_eq, IH. cbn [negb flat_map].
    now rewrite <- !app_assoc.
Qed.

Lemma join_flat_map :
  forall x l,
    join (str ",") (List.map item (x :: l))
    = item x ++ flat_map (fun y => str "," ++ item y) l.
Proof.
  intros x l. revert x. induction l as [|y l IH]; intros x.
  - simpl. now rewrite app_nil_r.
  - change (join (str ",") (List.map item (x :: y :: l)))
      with (item x ++ str "," ++ join (str ",") (List.map item (y :: l))).
    rewrite IH. cbn [flat_map]. now rewrite <- !app_assoc.
Qed.

Lemma separator_loop :
  forall l out,
    fst (fold_left step l (out, true))
    = out ++ join (str ",") (List.map item l).
Proof.
  intros [|x l] out.
  - simpl. now rewrite app_nil_r.
  - rewrite join_flat_map. simpl fold_left.
    rewrite step_eq, separator_loop_rest. cbn [negb fst].
    now rewrite <- app_assoc.
Qed.
End SeparatorLoop.

Lemma write_dates_spec :
  forall out dates,
    fst (fold_left write_date dates (out, true))
    = out ++ join (str ",") (List.map quoted_date dates).
Proof.
  intros out dates. apply (separator_loop _ quoted_date write_date).
  intros o first x. reflexivity.
Qed.

Lemma write_student_spec :
  forall out first pair,
    write_student (out, first) pair
    = ((if negb first then out ++ str "," else out) ++ encode_entry pair, false).
Proof.
  intros out first pair. unfold write_student.
  rewrite write_dates_spec. f_equal.
  generalize (if negb first then out ++ str "," else out). intros o.
  unfold encode_entry, quoted.
  change (lit "':[") with ([dquote] ++ str ":[").
  now rewrite <- !app_assoc.
Qed.

Lemma encode_spec :
  forall st,
    encode st = str "{" ++ join (str ",") (List.map encode_entry st) ++ str "}".
Proof.
  intros st. unfold encode.
  rewrite (separator_loop _ encode_entry write_student write_student_spec).
  now rewrite <- app_assoc.
Qed.

(** ** [getOverallStats] *)

Lemma wrap_int_small : forall z, in_int_range z -> wrap_int z = z.
Proof.
  unfold in_int_range, INT_MIN, INT_MAX, wrap_int. intros z H.
  rewrite Z.mod_small; lia.
Qed.

Lemma StronglySorted_NoDup :
  forall (A : Type) (R : A -> A -> Prop),
    (forall x, ~ R x x) ->
    forall l, StronglySorted R l -> NoDup l.
Proof.
  intros A R irr l H. induction H as [|x l H IH F]; constructor; auto.
  intros I. rewrite Forall_forall in F. exact (irr x (F x I)).
Qed.

Lemma str_lt_irrefl : forall a, ~ str_lt a a.
Proof. intros a H. unfold str_lt in H. now rewrite str_ltb_irrefl in H. Qed.

Lemma set_insert_In :
  forall x d s, In x (set_insert d s) <-> x = d \/ In x s.
Proof.
  induction s as [|y s IH]; simpl.
  - intuition.
  - destruct (str_ltb d y) eqn:L1; simpl; [intuition|].
    destruct (str_ltb y d) eqn:L2; simpl.
    + rewrite IH. intuition.
    + assert (d = y) by (apply str_le_antisym; assumption).
      subst. intuition.
Qed.

Lemma set_insert_sorted :
  forall d s, StronglySorted str_lt s -> StronglySorted str_lt (set_insert d s).
Proof.
  induction s as [|y s IH]; simpl; intros H.
  - repeat constructor.
  - inversion H as [|? ? Hs Hf]; subst.
    destruct (str_ltb d y) eqn:L1.
    + constructor; auto. constructor; auto.
      eapply Forall_impl; [|exact Hf].
      intros z Hz. eapply str_lt_trans; eauto.
    + destruct (str_ltb y d) eqn:L2; auto.
      constructor; auto.
      apply Forall_forall. intros z Hz.
      apply set_insert_In in Hz. destruct Hz as [->|Hz]; auto.
      rewrite Forall_forall in Hf. auto.
Qed.

Lemma unique_dates_In :
  forall x l u,
    In x (fold_left (fun u date => set_insert date u) l u) <-> In x l \/ In x u.
Proof.
  induction l as [|d l IH]; intros u; simpl.
  - intuition.
  - rewrite IH, set_insert_In. intuition.
Qed.

Lemma unique_dates_sorted :
  forall l u,
    StronglySorted str_lt u ->
    StronglySorted str_lt (fold_left (fun u date => set_insert date u) l u).
Proof.
  induction l as [|d l IH]; intros u H; simpl; auto.
  apply IH. now apply set_insert_sorted.
Qed.

Lemma wrap_int_add :
  forall a b, wrap_int (wrap_int a + b) = wrap_int (a + b).
Proof.
  intros a b. unfold wrap_int. f_equal.
  replace ((a + 2 ^ 31) mod 2 ^ 32 - 2 ^ 31 + b + 2 ^ 31)
    with ((a + 2 ^ 31) mod 2 ^ 32 + b) by lia.
  rewrite Zplus_mod_idemp_l. f_equal. lia.
Qed.

Lemma stats_loop_spec :
  forall st total unique,
    fold_left stats_step st (wrap_int total, unique)
    = (wrap_int (total + Z.of_nat (total_entries st)),
       fold_left (fun u date => set_insert date u) (all_dates st) unique).
Proof.
  unfold total_entries, all_dates.
  induction st as [|[k v] st IH]; intros total unique.
  - simpl. now rewrite Z.add_0_r.
  - assert (E : forall a l, list_sum (a :: l) = (a + list_sum l)%nat)
      by reflexivity.
    cbn [List.map flat_map fold_left stats_step snd].
    rewrite E, wrap_int_add, IH, fold_left_app.
    f_equal. f_equal. lia.
Qed.

Lemma unique_dates_count :
  forall st,
    length (fold_left (fun u date => set_insert date u) (all_dates st) [])
    = count_distinct cstring_dec (all_dates st).
Proof.
  intros st. unfold count_distinct. apply Permutation_length.
  apply NoDup_Permutation.
  - apply (StronglySorted_NoDup cstring str_lt str_lt_irrefl).
    apply unique_dates_sorted. constructor.
  - apply NoDup_nodup.
  - intros x. rewrite unique_dates_In, nodup_In. simpl. tauto.
Qed.

Lemma distinct_keys_count :
  forall st,
    StdMap.ok st -> count_distinct Z.eq_dec (StdMap.keys st) = StdMap.size st.
Proof.
  intros st OK. unfold count_distinct, StdMap.size, StdMap.keys.
  rewrite nodup_fixed_point, length_map; auto.
  apply (StronglySorted_NoDup Z Z.lt); auto. intros x; lia.
Qed.

(** ** The scanning loop and the top-level segments *)

Lemma bind_assoc :
  forall (A B C : Type) (r : result A) (f : A -> result B) (g : B -> result C),
    bind (bind r f) g = bind r (fun a => bind (f a) g).
Proof. intros A B C [a|e] f g; reflexivity. Qed.

Lemma skipn_length_app :
  forall (A : Type) (l1 l2 : list A), skipn (length l1) (l1 ++ l2) = l2.
Proof. induction l1; simpl; auto. Qed.

Lemma firstn_length_app :
  forall (A : Type) (l1 l2 : list A), firstn (length l1) (l1 ++ l2) = l1.
Proof. induction l1; simpl; intros; f_equal; auto. Qed.

Lemma scan_loop_split :
  forall json rest pre cur counts att,
    json = pre ++ cur ++ rest ->
    bind (scan_loop json (length rest) (length pre + length cur) (length pre)
            counts att)
         (fun r => process_last_segment (substr_from (fst r) json) (snd r))
    = bind (run_segments (fst (split_top rest counts cur)) att)
           (process_last_segment (snd (split_top rest counts cur))).
Proof.
  intros json rest. induction rest as [|c rest IH]; intros pre cur counts att E.
  - simpl. unfold substr_from. subst json.
    now rewrite skipn_length_app, app_nil_r.
  - cbn [length scan_loop split_top].
    assert (N : nth (length pre + length cur) json zero = c).
    { subst json. rewrite app_assoc, <- length_app. apply nth_middle. }
    rewrite N.
    destruct (Ascii.eqb c ","%char && (fst (count_nesting c counts) =? 0)
              && (snd (count_nesting c counts) =? 0)) eqn:Sep.
    + assert (G : substr (length pre) (length pre + length cur - length pre) json
                  = cur).
      { unfold substr. subst json. rewrite skipn_length_app.
        replace (length pre + length cur - length pre)%nat with (length cur)
          by lia.
        apply firstn_length_app. }
      rewrite G. cbn [fst snd run_segments].
      rewrite !bind_assoc.
      destruct (process_segment cur att) as [att'|e]; [|reflexivity].
      cbn [bind].
      specialize (IH (pre ++ cur ++ [c]) [] (count_nesting c counts) att').
      rewrite !length_app in IH. simpl length in IH.
      replace (S (length pre + length cur))
        with (length pre + (length cur + 1) + 0)%nat by lia.
      replace (length pre + length cur + 1)%nat
        with (length pre + (length cur + 1))%nat by lia.
      apply IH. subst json. now rewrite <- !app_assoc.
    + specialize (IH pre (cur ++ [c]) (count_nesting c counts) att).
      rewrite length_app in IH. simpl length in IH.
      replace (S (length pre + length cur))
        with (length pre + (length cur + 1))%nat by lia.
      apply IH. subst json. now rewrite <- !app_assoc.
Qed.

(** [parse_body] processes the comma-terminated top-level segments in
    order and then the last segment. *)
Lemma parse_body_segments :
  forall json att,
    parse_body json att
    = bind (run_segments (fst (top_level_segments json)) att)
           (process_last_segment (snd (top_level_segments json))).
Proof.
  intros json att. unfold parse_body, top_level_segments.
  apply (scan_loop_split json json [] [] (0, 0) att). reflexivity.
Qed.

Lemma last_app_single :
  forall (A : Type) (l : list A) (x d : A), last (l ++ [x]) d = x.
Proof.
  induction l as [|y l IH]; intros x d; simpl; auto.
  rewrite IH. destruct (l ++ [x]) eqn:E; auto.
  destruct l; discriminate E.
Qed.

(** Removing the first and the last character of a wrapped text. *)
Lemma enclosed_wrap :
  forall a b s, enclosed a b (a :: s ++ [b]) = true.
Proof.
  intros a b s. unfold enclosed, front, back.
  change (a :: s ++ [b]) with ((a :: s) ++ [b]).
  rewrite last_app_single. simpl hd.
  rewrite !Ascii.eqb_refl, !andb_true_r.
  apply Nat.leb_le. rewrite length_app. simpl. lia.
Qed.

Lemma substr_wrap :
  forall a b s, substr 1 (length (a :: s ++ [b]) - 2) (a :: s ++ [b]) = s.
Proof.
  intros a b s. unfold substr. simpl. rewrite length_app. simpl.
  replace (length s + 1 - 1)%nat with (length s) by lia.
  apply firstn_length_app.
Qed.

Lemma decode_wrapped :
  forall body,
    decode ("{"%char :: body ++ ["}"%char])
    = match parse_body body StdMap.empty with
      | Ok st => decoded st
      | Throw e => parse_error (ErrorParsingJson e)
      end.
Proof.
  intros body. unfold decode, loadData.
  pose proof (enclosed_wrap "{"%char "}"%char body) as W.
  unfold enclosed in W. apply andb_true_iff in W. destruct W as [W W3].
  apply andb_true_iff in W. destruct W as [W1 W2].
  rewrite W2, W3. cbn [negb orb].
  replace (length ("{"%char :: body ++ ["}"%char]) =? 0)%nat with false
    by reflexivity.
  replace (length ("{"%char :: body ++ ["}"%char]) <? 2)%nat with false
    by (symmetry; apply Nat.ltb_ge; now apply Nat.leb_le).
  cbn [orb]. rewrite substr_wrap. reflexivity.
Qed.

(** ** Parse errors *)

Lemma process_segment_bad_key :
  forall seg key e att,
    entry_key seg = Some key -> stoi key = Throw e ->
    process_segment seg att = Throw e
    /\ process_last_segment seg att = Throw e.
Proof.
  intros seg key e att K T.
  unfold entry_key in K. unfold process_segment, process_last_segment.
  destruct (find_char ":"%char seg); [|discriminate].
  injection K as K. rewrite K, T. split; reflexivity.
Qed.

Lemma run_segments_throw :
  forall seg key e segs att,
    In seg segs -> entry_key seg = Some key -> stoi key = Throw e ->
    exists e', run_segments segs att = Throw e'.
Proof.
  intros seg key e segs. induction segs as [|s0 segs IH]; intros att I K T.
  - destruct I.
  - simpl. destruct (process_segment s0 att) as [att'|e0] eqn:P.
    + destruct I as [->|I]; [|now apply IH].
      rewrite (proj1 (process_segment_bad_key _ _ _ att K T)) in P.
      discriminate P.
    + now exists e0.
Qed.

Lemma parse_body_unparseable :
  forall body att,
    has_unparseable_id body -> exists e, parse_body body att = Throw e.
Proof.
  intros body att (seg & key & e & I & K & T).
  rewrite parse_body_segments. unfold top_level_entries in I.
  apply in_app_or in I. destruct I as [I|[<-|[]]].
  - destruct (run_segments_throw seg key e _ att I K T) as [e' ->].
    now exists e'.
  - destruct (run_segments _ att) as [att'|e']; [|now exists e'].
    simpl. rewrite (proj2 (process_segment_bad_key _ _ _ att' K T)).
    now exists e.
Qed.

(** C5.  Decoding the empty text reports nothing and leaves the store
    empty; a non-empty text that is shorter than two characters or is
    not wrapped in braces gives the invalid-format error, and a wrapped
    text with an entry whose id [std::stoi] rejects gives the parsing
    error; after either error the store is empty. *)
Theorem decode_errors :
  decode [] = no_data /\
  (forall text,
      text <> [] ->
      (length text < 2)%nat \/ front text <> "{"%char \/ back text <> "}"%char ->
      decode text = parse_error InvalidJsonFormat) /\
  (forall body,
      has_unparseable_id body ->
      exists e,
        decode ("{"%char :: body ++ ["}"%char])
        = parse_error (ErrorParsingJson e)) /\
  (forall d, parse_error d <> no_data /\ load_store (parse_error d) = StdMap.empty) /\
  (forall text,
      loaded (decode text) = false -> load_store (decode text) = StdMap.empty).
Proof.
  split; [reflexivity|]. split; [|split; [|split]].
  - intros text NE H. unfold decode, loadData.
    destruct text as [|c text]; [congruence|].
    cbn [length Nat.eqb].
    destruct H as [H|[H|H]].
    + apply Nat.ltb_lt in H. cbn [length] in H. now rewrite H.
    + apply Ascii.eqb_neq in H. rewrite H. cbn [negb orb].
      now rewrite orb_true_r.
    + apply Ascii.eqb_neq in H. rewrite H. cbn [negb orb].
      now rewrite !orb_true_r.
  - intros body H. rewrite decode_wrapped.
    destruct (parse_body_unparseable body StdMap.empty H) as [e ->].
    now exists e.
  - intros d. split; [discriminate|reflexivity].
  - intros text. unfold decode, loadData.
    destruct (length text =? 0)%nat; auto.
    destruct (_ || _ || _); auto.
    destruct (parse_body _ StdMap.empty); simpl; auto. discriminate.
Qed.

Lemma decode_errors_witness :
  decode (str "{invalid") = parse_error InvalidJsonFormat /\
  exists e, decode (lit "{'1':[a],'x':[b]}") = parse_error (ErrorParsingJson e).
Proof.
  split.
  - apply decode_errors; [discriminate|]. right. right. discriminate.
  - apply (proj1 (proj2 (proj2 decode_errors)) (lit "'1':[a],'x':[b]")).
    exists (lit "'x':[b]"), (str "x"), invalid_argument.
    vm_compute. auto.
Defined.

(** ** Entries without brackets *)

Lemma process_segment_unbracketed :
  forall seg key value id att,
    entry_key seg = Some key -> entry_value seg = Some value ->
    stoi key = Ok id -> enclosed "["%char "]"%char value = false ->
    process_segment seg att = Ok att.
Proof.
  intros seg key value id att K V T E.
  unfold entry_key in K. unfold entry_value in V. unfold process_segment.
  destruct (find_char ":"%char seg); [|discriminate].
  injection K as K. injection V as V. rewrite K, T, V. simpl.
  now rewrite E.
Qed.

Lemma process_last_segment_unbracketed :
  forall seg key value id att,
    entry_key seg = Some key -> entry_value seg = Some value ->
    stoi key = Ok id -> enclosed "["%char "]"%char value = false ->
    process_last_segment seg att = Ok (load_dates value id att).
Proof.
  intros seg key value id att K V T E.
  unfold entry_key in K. unfold entry_value in V. unfold process_last_segment.
  destruct (find_char ":"%char seg); [|discriminate].
  injection K as K. injection V as V. rewrite K, T, V. simpl.
  now rewrite E.
Qed.

(** C6.  An entry whose value has no brackets is skipped when a
    top-level comma follows it, but as the last entry its value is read
    as the list of dates. *)
Theorem unbracketed_last_entry_is_loaded :
  decode (lit "{'1':abc,'2':[x]}") = decoded [(2, [str "x"])] /\
  decode (lit "{'2':[x],'1':abc}") = decoded [(1, [str "abc"]); (2, [str "x"])] /\
  decode (lit "{'1':abc}") = decoded [(1, [str "abc"])].
Proof. repeat split; reflexivity. Qed.

(** ** Key order is an invariant of every operation *)

Lemma ok_read_dates :
  forall fuel ss k att, StdMap.ok att -> StdMap.ok (read_dates fuel ss k att).
Proof.
  induction fuel as [|fuel IH]; intros ss k att H; simpl; auto.
  destruct (getline ","%char ss) as [[seg ss']|]; auto.
  apply IH. now apply ok_push_back_at.
Qed.

Lemma ok_load_dates :
  forall v k att, StdMap.ok att -> StdMap.ok (load_dates v k att).
Proof.
  intros v k att H. unfold load_dates.
  now apply ok_sort_at, ok_read_dates.
Qed.

Lemma ok_process_segment :
  forall seg att, StdMap.ok att -> result_ok (process_segment seg att).
Proof.
  intros seg att H. unfold process_segment.
  destruct (find_char ":"%char seg); simpl; auto.
  destruct (stoi _); simpl; auto.
  destruct (enclosed _ _ _); simpl; auto using ok_load_dates.
Qed.

Lemma ok_process_last_segment :
  forall seg att, StdMap.ok att -> result_ok (process_last_segment seg att).
Proof.
  intros seg att H. unfold process_last_segment.
  destruct (find_char ":"%char seg); simpl; auto.
  destruct (stoi _); simpl; auto using ok_load_dates.
Qed.

Lemma ok_run_segments :
  forall segs att, StdMap.ok att -> result_ok (run_segments segs att).
Proof.
  induction segs as [|seg segs IH]; intros att H; simpl; auto.
  pose proof (ok_process_segment seg att H) as P.
  destruct (process_segment seg att); simpl; auto.
Qed.

Lemma ok_parse_body :
  forall json att, StdMap.ok att -> result_ok (parse_body json att).
Proof.
  intros json att H. rewrite parse_body_segments.
  pose proof (ok_run_segments (fst (top_level_segments json)) att H) as P.
  destruct (run_segments _ att); simpl; auto.
  now apply ok_process_last_segment.
Qed.

Lemma ok_loadData :
  forall file att, StdMap.ok att -> StdMap.ok (load_store (loadData file att)).
Proof.
  intros file att H. unfold loadData.
  destruct file as [json|]; simpl; auto.
  destruct (length json =? 0)%nat; simpl; auto.
  destruct (_ || _ || _); simpl; auto.
  pose proof (ok_parse_body (substr 1 (length json - 2) json) att H) as P.
  destruct (parse_body _ att); simpl; auto. constructor.
Qed.

Lemma ok_markAttendance :
  forall id date att,
    StdMap.ok att -> StdMap.ok (snd (markAttendance id date att)).
Proof.
  intros id date att H. unfold markAttendance.
  destruct (negb _); simpl;
    auto using ok_touch, ok_push_back_at, ok_sort_at.
Qed.

Lemma ok_replay : forall ops, StdMap.ok (replay ops).
Proof.
  intros ops. unfold replay.
  assert (G : forall st, StdMap.ok st -> StdMap.ok (fold_left apply_operation ops st)).
  { induction ops as [|op ops IH]; intros st H; simpl; auto.
    apply IH. destruct op; simpl; auto using ok_loadData, ok_markAttendance. }
  apply G. constructor.
Qed.

Lemma find_not_key :
  forall k m, ~ In k (StdMap.keys m) -> StdMap.find k m = None.
Proof.
  induction m as [|[k' v] m IH]; simpl; intros H; auto.
  destruct (Z.eqb_spec k k') as [->|N]; [tauto|].
  apply IH. tauto.
Qed.

Lemma find_below :
  forall k m, Forall (Z.lt k) (StdMap.keys m) -> StdMap.find k m = None.
Proof.
  intros k m H. apply find_not_key. intros I.
  rewrite Forall_forall in H. specialize (H k I). lia.
Qed.

(** Two well-formed maps with the same bindings are the same list. *)
Lemma map_extensionality :
  forall m1 m2,
    StdMap.ok m1 -> StdMap.ok m2 ->
    (forall k, StdMap.find k m1 = StdMap.find k m2) -> m1 = m2.
Proof.
  unfold StdMap.ok.
  induction m1 as [|[k1 v1] m1 IH]; intros [|[k2 v2] m2] H1 H2 E; auto.
  - specialize (E k2). simpl in E. rewrite Z.eqb_refl in E. discriminate E.
  - specialize (E k1). simpl in E. rewrite Z.eqb_refl in E. discriminate E.
  - simpl in H1, H2.
    inversion H1 as [|? ? S1 F1]; inversion H2 as [|? ? S2 F2]; subst.
    assert (K : k1 = k2).
    { pose proof (E k1) as E1. pose proof (E k2) as E2. simpl in E1, E2.
      rewrite Z.eqb_refl in E1, E2.
      destruct (Z.eqb_spec k1 k2) as [|N]; auto.
      destruct (Z.eqb_spec k2 k1) as [|_]; [congruence|].
      destruct (Z.lt_total k1 k2) as [L|[L|L]]; [|tauto|].
      - rewrite find_below in E1; [discriminate|].
        eapply Forall_impl; [|exact F2]. intros; simpl in *; lia.
      - rewrite find_below in E2; [discriminate|].
        eapply Forall_impl; [|exact F1]. intros; simpl in *; lia. }
    subst k2.
    assert (V : v1 = v2).
    { specialize (E k1). simpl in E. rewrite Z.eqb_refl in E. congruence. }
    subst v2. f_equal. apply IH; auto.
    intros k. destruct (Z.eq_dec k k1) as [->|N].
    + now rewrite !find_below.
    + specialize (E k). simpl in E.
      destruct (Z.eqb_spec k k1); [contradiction|assumption].
Qed.

(** C9.  After any sequence of loads and marks the ids of the store are
    strictly ascending and [saveData] writes the entries in that order;
    two such stores with the same bindings are written as the same
    text. *)
Theorem encode_ascending_deterministic :
  forall ops : list operation,
    StronglySorted Z.lt (List.map fst (replay ops)) /\
    encode (replay ops)
    = str "{" ++ join (str ",") (List.map encode_entry (replay ops)) ++ str "}" /\
    (forall ops',
        (forall id, StdMap.find id (replay ops') = StdMap.find id (replay ops)) ->
        encode (replay ops') = encode (replay ops)).
Proof.
  intros ops. split; [apply ok_replay|]. split; [apply encode_spec|].
  intros ops' E. f_equal.
  apply map_extensionality; auto using ok_replay.
Qed.

Lemma encode_ascending_deterministic_witness :
  encode (replay [OpMark 102 (str "2025-07-01"); OpMark 101 (str "2025-07-02")])
  = encode (replay [OpLoad (Some (lit "{'102':['2025-07-01']}"));
                    OpMark 101 (str "2025-07-02")]).
Proof.
  apply (encode_ascending_deterministic
           [OpLoad (Some (lit "{'102':['2025-07-01']}"));
            OpMark 101 (str "2025-07-02")]).
  intros id. reflexivity.
Defined.

(** ** Decimal numbers: [std::stoi] after [std::to_string] *)

Lemma digit_facts :
  forall c,
    is_digit c = true ->
    is_space c = false /\ Ascii.eqb c "-"%char = false
    /\ Ascii.eqb c "+"%char = false /\ is_id_char c = true.
Proof. intros c. char_cases c. Qed.

Lemma id_char_facts :
  forall c,
    is_id_char c = true ->
    Ascii.eqb c ":"%char = false /\ Ascii.eqb c ","%char = false
    /\ is_nesting c = false /\ is_space c = false.
Proof. intros c. char_cases c. Qed.

Lemma plain_char_facts :
  forall c,
    plain_char c = true ->
    Ascii.eqb c ","%char = false /\ is_nesting c = false
    /\ escape_char c = [c].
Proof. intros c. char_cases c. Qed.

Lemma uint_chars_digits :
  forall d, forallb is_digit (uint_chars d) = true.
Proof. induction d; simpl; auto. Qed.

Lemma read_digits_pos :
  forall d p n,
    read_digits (uint_chars d) (Z.pos p) n
    = (Z.pos (Pos.of_uint_acc d p), (n + Decimal.nb_digits d)%nat).
Proof.
  induction d; intros p n;
    try (cbn [uint_chars NilEmpty.string_of_uint list_ascii_of_string
                read_digits Pos.of_uint_acc Decimal.nb_digits];
         fold (uint_chars d);
         match goal with
         | |- context [digit_value ?c] =>
             let v := eval vm_compute in (digit_value c) in
             change (digit_value c) with v
         end;
         cbv iota beta;
         match goal with
         | |- read_digits _ ?a _ = (Z.pos (Pos.of_uint_acc _ ?b), _) =>
             replace a with (Z.pos b) by lia
         end;
         rewrite IHd; f_equal; lia).
  simpl. f_equal. lia.
Qed.

Lemma read_digits_zero :
  forall d n,
    read_digits (uint_chars d) 0 n
    = (Z.of_N (Pos.of_uint d), (n + Decimal.nb_digits d)%nat).
Proof.
  induction d; intros n;
    try (cbn [uint_chars NilEmpty.string_of_uint list_ascii_of_string
                read_digits Pos.of_uint Decimal.nb_digits];
         fold (uint_chars d);
         match goal with
         | |- context [digit_value ?c] =>
             let v := eval vm_compute in (digit_value c) in
             change (digit_value c) with v
         end;
         cbv iota beta).
  - simpl. f_equal. lia.
  - change (10 * 0 + 0) with 0. rewrite IHd. f_equal. lia.
  - change (10 * 0 + 1) with (Z.pos 1). rewrite read_digits_pos. f_equal. lia.
  - change (10 * 0 + 2) with (Z.pos 2). rewrite read_digits_pos. f_equal. lia.
  - change (10 * 0 + 3) with (Z.pos 3). rewrite read_digits_pos. f_equal. lia.
  - change (10 * 0 + 4) with (Z.pos 4). rewrite read_digits_pos. f_equal. lia.
  - change (10 * 0 + 5) with (Z.pos 5). rewrite read_digits_pos. f_equal. lia.
  - change (10 * 0 + 6) with (Z.pos 6). rewrite read_digits_pos. f_equal. lia.
  - change (10 * 0 + 7) with (Z.pos 7). rewrite read_digits_pos. f_equal. lia.
  - change (10 * 0 + 8) with (Z.pos 8). rewrite read_digits_pos. f_equal. lia.
  - change (10 * 0 + 9) with (Z.pos 9). rewrite read_digits_pos. f_equal. lia.
Qed.

Lemma read_digits_to_uint :
  forall p,
    exists n, read_digits (uint_chars (Pos.to_uint p)) 0 O = (Z.pos p, S n).
Proof.
  intros p. rewrite read_digits_zero, DecimalPos.Unsigned.of_to.
  pose proof (DecimalPos.Unsigned.to_uint_nonnil p) as NN.
  destruct (Pos.to_uint p); try congruence; simpl; eexists; reflexivity.
Qed.

Lemma skip_spaces_digits :
  forall s, forallb is_digit s = true -> skip_spaces s = s.
Proof.
  intros [|c s] H; simpl in *; auto.
  apply andb_true_iff in H. destruct H as [H _].
  apply digit_facts in H. destruct H as [H _]. now rewrite H.
Qed.

Lemma stoi_digits :
  forall p,
    in_int_range (Z.pos p) ->
    stoi (uint_chars (Pos.to_uint p)) = Ok (Z.pos p).
Proof.
  intros p R. unfold stoi.
  pose proof (uint_chars_digits (Pos.to_uint p)) as D.
  rewrite skip_spaces_digits by exact D.
  destruct (read_digits_to_uint p) as [n E].
  destruct (uint_chars (Pos.to_uint p)) as [|c s] eqn:U.
  - simpl in E. discriminate E.
  - simpl in D. apply andb_true_iff in D. destruct D as [D _].
    apply digit_facts in D. destruct D as (_ & D1 & D2 & _).
    rewrite D1, D2, E.
    unfold in_int_range in R.
    destruct R as [R1 R2]. apply Z.leb_le in R1, R2. now rewrite R1, R2.
Qed.

Lemma stoi_minus_digits :
  forall p,
    in_int_range (Z.neg p) ->
    stoi ("-"%char :: uint_chars (Pos.to_uint p)) = Ok (Z.neg p).
Proof.
  intros p R. unfold stoi.
  change (skip_spaces ("-"%char :: uint_chars (Pos.to_uint p)))
    with ("-"%char :: uint_chars (Pos.to_uint p)).
  cbv beta iota. change (Ascii.eqb "-"%char "-"%char) with true.
  cbv beta iota.
  destruct (read_digits_to_uint p) as [n E]. rewrite E.
  change (- Z.pos p) with (Z.neg p).
  unfold in_int_range in R.
  destruct R as [R1 R2]. apply Z.leb_le in R1, R2. now rewrite R1, R2.
Qed.

Lemma stoi_to_string :
  forall k, in_int_range k -> stoi (to_string k) = Ok k.
Proof.
  intros [|p|p] R.
  - reflexivity.
  - now apply stoi_digits.
  - now apply stoi_minus_digits.
Qed.

Lemma to_string_chars :
  forall k, forallb is_id_char (to_string k) = true.
Proof.
  assert (G : forall d, forallb is_id_char (uint_chars d) = true).
  { intros d. pose proof (uint_chars_digits d) as D.
    induction (uint_chars d) as [|c s IH]; simpl in *; auto.
    apply andb_true_iff in D. destruct D as [D1 D2].
    apply digit_facts in D1. destruct D1 as (_ & _ & _ & D1).
    now rewrite D1, IH. }
  intros [|p|p].
  - reflexivity.
  - apply G.
  - change (to_string (Z.neg p)) with ("-"%char :: uint_chars (Pos.to_uint p)).
    simpl. apply G.
Qed.

(** ** Scanning an encoded entry *)

Lemma count_nesting_inert :
  forall c counts, is_nesting c = false -> count_nesting c counts = counts.
Proof.
  intros c [b k] H. unfold is_nesting, mem_char in H. simpl in H.
  repeat (apply orb_false_iff in H; destruct H as [?E H]; rewrite ?E).
  unfold count_nesting. now rewrite E, E0, E1, E2.
Qed.

Lemma split_top_inert :
  forall s rest counts cur,
    Forall (fun c => is_nesting c = false
                     /\ (Ascii.eqb c ","%char = false \/ snd counts <> 0)) s ->
    split_top (s ++ rest) counts cur = split_top rest counts (cur ++ s).
Proof.
  induction s as [|c s IH]; intros rest counts cur H.
  - simpl. now rewrite app_nil_r.
  - inversion H as [|? ? [N C] H']; subst.
    cbn [app split_top]. rewrite (count_nesting_inert c counts N).
    replace (Ascii.eqb c ","%char && (fst counts =? 0) && (snd counts =? 0))
      with false.
    + rewrite IH by assumption. now rewrite <- app_assoc.
    + destruct C as [C|C]; [now rewrite C|].
      apply Z.eqb_neq in C. rewrite C. now rewrite andb_false_r.
Qed.

Lemma Forall_join :
  forall (P : ascii -> Prop) sep l,
    Forall P sep -> Forall (Forall P) l -> Forall P (join sep l).
Proof.
  intros P sep l Hs. induction l as [|x l IH]; intros H.
  - constructor.
  - inversion H as [|? ? Hx Hl]; subst.
    destruct l as [|y l]; [exact Hx|].
    change (join sep (x :: y :: l)) with (x ++ sep ++ join sep (y :: l)).
    rewrite !Forall_app. auto.
Qed.

Lemma escape_plain :
  forall d, plain_date d -> escape_json_string d = d.
Proof.
  intros d H. rewrite escape_json_string_spec. unfold plain_date in H.
  induction d as [|c d IH]; simpl in *; auto.
  apply andb_true_iff in H. destruct H as [H1 H2].
  destruct (plain_char_facts c H1) as (_ & _ & E).
  rewrite E, IH; auto.
Qed.

Lemma quoted_date_plain :
  forall d, plain_date d -> quoted_date d = quoted d.
Proof. intros d H. unfold quoted_date. now rewrite escape_plain. Qed.

Lemma plain_date_chars :
  forall d,
    plain_date d ->
    Forall (fun c => is_nesting c = false /\ Ascii.eqb c ","%char = false) d.
Proof.
  intros d H. unfold plain_date in H. rewrite forallb_forall in H.
  apply Forall_forall. intros c I.
  destruct (plain_char_facts c (H c I)) as (A & B & _). auto.
Qed.

Lemma dates_text_chars :
  forall ds,
    Forall plain_date ds ->
    Forall (fun c => is_nesting c = false) (dates_text ds).
Proof.
  intros ds H. unfold dates_text. apply Forall_join.
  - repeat constructor.
  - apply Forall_map. eapply Forall_impl; [|exact H].
    intros d Hd. rewrite quoted_date_plain by assumption. unfold quoted.
    rewrite !Forall_app. repeat split; try (repeat constructor).
    eapply Forall_impl; [|apply plain_date_chars; exact Hd].
    simpl. tauto.
Qed.

Lemma to_string_inert :
  forall k,
    Forall (fun c => Ascii.eqb c ":"%char = false
                     /\ Ascii.eqb c ","%char = false
                     /\ is_nesting c = false) (to_string k).
Proof.
  intros k. pose proof (to_string_chars k) as H.
  rewrite forallb_forall in H. apply Forall_forall. intros c I.
  destruct (id_char_facts c (H c I)) as (A & B & C & _). auto.
Qed.

(** The key part and the bracketed part of an entry. *)
Lemma encode_entry_shape :
  forall k (ds : vector),
    encode_entry (k, ds)
    = quoted (to_string k) ++ ":"%char :: "["%char :: dates_text ds ++ ["]"%char].
Proof.
  intros k ds. unfold encode_entry, dates_text. simpl fst. simpl snd.
  reflexivity.
Qed.

Lemma split_top_entry :
  forall k (ds : vector) rest cur,
    Forall plain_date ds ->
    split_top (encode_entry (k, ds) ++ rest) (0, 0) cur
    = split_top rest (0, 0) (cur ++ encode_entry (k, ds)).
Proof.
  intros k ds rest cur H. rewrite encode_entry_shape.
  rewrite <- !app_assoc.
  rewrite split_top_inert.
  2:{ unfold quoted. rewrite !Forall_app. repeat split.
      - repeat constructor.
      - eapply Forall_impl; [|apply to_string_inert]. simpl. tauto.
      - repeat constructor. }
  cbn [app split_top].
  change (count_nesting ":"%char (0, 0)) with (0, 0).
  change (count_nesting "["%char (0, 0)) with (0, 1).
  cbn [Ascii.eqb Bool.eqb andb fst snd].
  rewrite <- !app_assoc.
  rewrite (split_top_inert (dates_text ds)).
  2:{ eapply Forall_impl; [|apply dates_text_chars; exact H].
      simpl. intros c N. split; auto. right. discriminate. }
  cbn [app split_top].
  change (count_nesting "]"%char (0, 1)) with (0, 0).
  cbn [Ascii.eqb Bool.eqb andb fst snd].
  now rewrite <- !app_assoc.
Qed.

(** ** Reading the dates of an encoded entry *)

Lemma find_char_absent :
  forall x s, Forall (fun c => Ascii.eqb c x = false) s -> find_char x s = None.
Proof.
  induction s as [|c s IH]; intros H; simpl; auto.
  inversion H as [|? ? Hc Hs]; subst. now rewrite Hc, IH.
Qed.

Lemma find_char_first :
  forall x s t,
    Forall (fun c => Ascii.eqb c x = false) s ->
    find_char x (s ++ x :: t) = Some (length s).
Proof.
  induction s as [|c s IH]; intros t H; simpl.
  - now rewrite Ascii.eqb_refl.
  - inversion H as [|? ? Hc Hs]; subst. now rewrite Hc, IH.
Qed.

Lemma quoted_no_comma :
  forall d,
    plain_date d -> Forall (fun c => Ascii.eqb c ","%char = false) (quoted d).
Proof.
  intros d H. unfold quoted. rewrite !Forall_app. repeat split.
  - repeat constructor.
  - eapply Forall_impl; [|apply plain_date_chars; exact H]. simpl. tauto.
  - repeat constructor.
Qed.

Lemma getline_last :
  forall d,
    plain_date d -> getline ","%char (quoted d) = Some (quoted d, []).
Proof.
  intros d H. unfold getline.
  rewrite find_char_absent by now apply quoted_no_comma.
  reflexivity.
Qed.

Lemma getline_next :
  forall d rest,
    plain_date d ->
    getline ","%char (quoted d ++ ","%char :: rest) = Some (quoted d, rest).
Proof.
  intros d rest H. unfold getline.
  rewrite find_char_first by now apply quoted_no_comma.
  rewrite firstn_length_app.
  replace (S (length (quoted d))) with (length (quoted d ++ [","%char]))
    by (rewrite length_app; simpl; lia).
  change (quoted d ++ ","%char :: rest)
    with (quoted d ++ [","%char] ++ rest).
  rewrite app_assoc, skipn_length_app. reflexivity.
Qed.

Lemma find_last_not_of_end :
  forall set s c,
    mem_char c set = false -> find_last_not_of set (s ++ [c]) = Some (length s).
Proof.
  induction s as [|x s IH]; intros c H; simpl.
  - now rewrite H.
  - now rewrite IH.
Qed.

Lemma clean_date_quoted : forall d, clean_date (quoted d) = d.
Proof.
  intros d. unfold clean_date.
  change (find_first_not_of whitespace (quoted d)) with (Some O).
  cbn [erase_front skipn].
  change (quoted d) with ((dquote :: d) ++ [dquote]).
  rewrite find_last_not_of_end by reflexivity.
  cbn [erase_after].
  replace (S (length (dquote :: d)))
    with (length ((dquote :: d) ++ [dquote]))
    by (rewrite length_app; simpl; lia).
  rewrite firstn_all.
  change ((dquote :: d) ++ [dquote]) with (dquote :: d ++ [dquote]).
  now rewrite enclosed_wrap, substr_wrap.
Qed.

Lemma read_dates_text :
  forall ds fuel k att,
    Forall plain_date ds ->
    (length (dates_text ds) < fuel)%nat ->
    read_dates fuel (dates_text ds) k att
    = fold_left (fun a d => push_back_at k d a) ds att.
Proof.
  induction ds as [|d ds IH]; intros fuel k att H L.
  - destruct fuel; reflexivity.
  - inversion H as [|? ? Hd Hds]; subst.
    destruct fuel as [|fuel]; [lia|].
    destruct ds as [|d' ds].
    + unfold dates_text. cbn [List.map join read_dates fold_left].
      rewrite quoted_date_plain by assumption.
      rewrite getline_last by assumption.
      rewrite clean_date_quoted. destruct fuel; reflexivity.
    + unfold dates_text in *.
      change (join (str ",") (List.map quoted_date (d :: d' :: ds)))
        with (quoted_date d ++ ","%char
                :: join (str ",") (List.map quoted_date (d' :: ds))) in *.
      cbn [read_dates].
      rewrite (quoted_date_plain d) by assumption.
      rewrite getline_next by assumption.
      rewrite clean_date_quoted.
      rewrite IH; auto.
      rewrite length_app in L. cbn [length] in L. lia.
Qed.

Lemma getline_shorter :
  forall ss seg ss',
    getline ","%char ss = Some (seg, ss') -> (length ss' < length ss)%nat.
Proof.
  intros ss seg ss' G. unfold getline in G.
  destruct ss as [|c ss]; [discriminate|].
  destruct (find_char ","%char (c :: ss)) as [p|] eqn:F.
  - injection G as _ <-. simpl skipn.
    destruct (Nat.le_gt_cases p (length ss)).
    + rewrite length_skipn. simpl. lia.
    + rewrite skipn_all2 by lia. simpl. lia.
  - injection G as _ <-. simpl. lia.
Qed.

(** No iteration of the date loop is cut off: any fuel above the length
    of the text gives the same store. *)
Lemma read_dates_fuel :
  forall fuel1 fuel2 ss k att,
    (length ss < fuel1)%nat -> (length ss < fuel2)%nat ->
    read_dates fuel1 ss k att = read_dates fuel2 ss k att.
Proof.
  induction fuel1 as [|fuel1 IH]; intros fuel2 ss k att L1 L2; [lia|].
  destruct fuel2 as [|fuel2]; [lia|].
  cbn [read_dates].
  destruct (getline ","%char ss) as [[seg ss']|] eqn:G; auto.
  apply getline_shorter in G. apply IH; lia.
Qed.

(** ** Appending a student with the largest key *)

Lemma find_above :
  forall k att, below k att -> StdMap.find k att = None.
Proof.
  unfold below. induction att as [|[k' v] att IH]; intros H; simpl; auto.
  inversion H as [|? ? L H']; subst. simpl in L.
  destruct (Z.eqb_spec k k'); [lia|auto].
Qed.

Lemma insert_above :
  forall k v att, below k att -> StdMap.insert k v att = att ++ [(k, v)].
Proof.
  unfold below. induction att as [|[k' v'] att IH]; intros H; simpl; auto.
  inversion H as [|? ? L H']; subst. simpl in L.
  destruct (Z.ltb_spec k k'); [lia|].
  destruct (Z.eqb_spec k k'); [lia|].
  now rewrite IH.
Qed.

Lemma find_app_last :
  forall k v att,
    below k att -> StdMap.find k (att ++ [(k, v)]) = Some v.
Proof.
  intros k v att H. rewrite <- (insert_above k v att H).
  apply find_insert_same.
Qed.

Lemma insert_app_last :
  forall k v v' att,
    below k att -> StdMap.insert k v' (att ++ [(k, v)]) = att ++ [(k, v')].
Proof.
  unfold below. induction att as [|[k0 v0] att IH]; intros H; simpl.
  - rewrite Z.ltb_irrefl, Z.eqb_refl. reflexivity.
  - inversion H as [|? ? L H']; subst. simpl in L.
    destruct (Z.ltb_spec k k0); [lia|].
    destruct (Z.eqb_spec k k0); [lia|].
    now rewrite IH.
Qed.

Lemma push_back_new :
  forall k d att, below k att -> push_back_at k d att = att ++ [(k, [d])].
Proof.
  intros k d att H. unfold push_back_at, StdMap.touch.
  rewrite (find_above k att H), (insert_above k [] att H).
  unfold StdMap.get. rewrite (find_app_last k [] att H).
  now apply insert_app_last.
Qed.

Lemma push_back_last :
  forall k d v att,
    below k att ->
    push_back_at k d (att ++ [(k, v)]) = att ++ [(k, v ++ [d])].
Proof.
  intros k d v att H. unfold push_back_at.
  rewrite (touch_present k _ v (find_app_last k v att H)).
  unfold StdMap.get. rewrite (find_app_last k v att H).
  now apply insert_app_last.
Qed.

Lemma sort_at_new :
  forall k att, below k att -> sort_at k att = att ++ [(k, [])].
Proof.
  intros k att H. unfold sort_at, StdMap.touch.
  rewrite (find_above k att H), (insert_above k [] att H).
  unfold StdMap.get. rewrite (find_app_last k [] att H).
  now apply insert_app_last.
Qed.

Lemma sort_at_last :
  forall k v att,
    below k att -> sort_at k (att ++ [(k, v)]) = att ++ [(k, std_sort v)].
Proof.
  intros k v att H. unfold sort_at.
  rewrite (touch_present k _ v (find_app_last k v att H)).
  unfold StdMap.get. rewrite (find_app_last k v att H).
  now apply insert_app_last.
Qed.

Lemma push_all_last :
  forall k ds v att,
    below k att ->
    fold_left (fun a d => push_back_at k d a) ds (att ++ [(k, v)])
    = att ++ [(k, v ++ ds)].
Proof.
  induction ds as [|d ds IH]; intros v att H; simpl.
  - now rewrite app_nil_r.
  - rewrite push_back_last, IH by assumption. now rewrite <- app_assoc.
Qed.

Lemma load_dates_entry :
  forall k ds att,
    below k att -> Sorted str_le ds -> Forall plain_date ds ->
    load_dates (dates_text ds) k att = att ++ [(k, ds)].
Proof.
  intros k ds att B S P. unfold load_dates.
  rewrite read_dates_text by (auto; lia).
  destruct ds as [|d ds].
  - simpl. now apply sort_at_new.
  - simpl fold_left. rewrite push_back_new, push_all_last by assumption.
    rewrite sort_at_last by assumption.
    now rewrite std_sort_sorted_id.
Qed.

(** ** Decoding an encoded entry *)

Lemma quoted_no_colon :
  forall k, Forall (fun c => Ascii.eqb c ":"%char = false) (quoted (to_string k)).
Proof.
  intros k. unfold quoted. rewrite !Forall_app. repeat split.
  - repeat constructor.
  - eapply Forall_impl; [|apply to_string_inert]. simpl. tauto.
  - repeat constructor.
Qed.

Lemma entry_key_value :
  forall k (ds : vector),
    find_char ":"%char (encode_entry (k, ds))
    = Some (length (quoted (to_string k)))
    /\ unquote_key
         (substr 0 (length (quoted (to_string k))) (encode_entry (k, ds)))
       = to_string k
    /\ substr_from (length (quoted (to_string k)) + 1) (encode_entry (k, ds))
       = "["%char :: dates_text ds ++ ["]"%char].
Proof.
  intros k ds. rewrite encode_entry_shape. repeat split.
  - apply find_char_first, quoted_no_colon.
  - unfold substr. cbn [skipn]. rewrite firstn_length_app.
    unfold unquote_key, quoted. cbn [app].
    now rewrite enclosed_wrap, substr_wrap.
  - unfold substr_from.
    replace (length (quoted (to_string k)) + 1)%nat
      with (length (quoted (to_string k) ++ [":"%char]))
      by (rewrite length_app; reflexivity).
    change (quoted (to_string k) ++ ":"%char :: "["%char :: dates_text ds ++ ["]"%char])
      with (quoted (to_string k) ++ [":"%char] ++ "["%char :: dates_text ds ++ ["]"%char]).
    now rewrite app_assoc, skipn_length_app.
Qed.

Lemma process_entry :
  forall k (ds : vector) att,
    in_int_range k -> below k att -> Sorted str_le ds -> Forall plain_date ds ->
    process_segment (encode_entry (k, ds)) att = Ok (att ++ [(k, ds)])
    /\ process_last_segment (encode_entry (k, ds)) att = Ok (att ++ [(k, ds)]).
Proof.
  intros k ds att R B S P.
  destruct (entry_key_value k ds) as (E1 & E2 & E3).
  unfold process_segment, process_last_segment.
  rewrite E1, E2, E3, (stoi_to_string k R). cbn [bind].
  rewrite enclosed_wrap, substr_wrap.
  now rewrite load_dates_entry.
Qed.

Lemma below_app :
  forall k att k' v,
    below k att -> k' < k -> below k (att ++ [(k', v)]).
Proof.
  intros k att k' v B L. unfold below in *. rewrite Forall_app.
  split; auto.
Qed.

Lemma decode_entries :
  forall ps p att,
    Forall entry_ok (p :: ps) ->
    StronglySorted Z.lt (List.map fst (p :: ps)) ->
    below (fst p) att ->
    bind (run_segments
            (fst (split_top (join (str ",") (List.map encode_entry (p :: ps)))
                            (0, 0) [])) att)
         (process_last_segment
            (snd (split_top (join (str ",") (List.map encode_entry (p :: ps)))
                            (0, 0) [])))
    = Ok (att ++ p :: ps).
Proof.
  induction ps as [|p' ps IH]; intros [k ds] att F S B.
  - inversion F as [|? ? (R & So & Pl) _]; subst. simpl in R, So, Pl, B.
    cbn [List.map join].
    rewrite <- (app_nil_r (encode_entry (k, ds))).
    rewrite split_top_entry by assumption.
    cbn [split_top fst snd run_segments bind app].
    now apply process_entry.
  - inversion F as [|? ? (R & So & Pl) F']; subst. simpl in R, So, Pl, B.
    inversion S as [|? ? S' L]; subst.
    change (join (str ",") (List.map encode_entry ((k, ds) :: p' :: ps)))
      with (encode_entry (k, ds)
              ++ ","%char :: join (str ",") (List.map encode_entry (p' :: ps))).
    rewrite split_top_entry by assumption.
    cbn [split_top]. change (count_nesting ","%char (0, 0)) with (0, 0).
    cbn [Ascii.eqb Bool.eqb andb fst snd Z.eqb app run_segments].
    rewrite (proj1 (process_entry k ds att R B So Pl)). cbn [bind].
    rewrite IH; auto.
    + now rewrite <- app_assoc.
    + apply below_app.
      * eapply Forall_impl; [|exact B]. intros q Hq.
        inversion L; subst. simpl in *. lia.
      * inversion L; subst. assumption.
Qed.

Lemma find_In_ok :
  forall st k v, StdMap.ok st -> In (k, v) st -> StdMap.find k st = Some v.
Proof.
  unfold StdMap.ok. induction st as [|[k' v'] st IH]; intros k v H I.
  - destruct I.
  - simpl in H. inversion H as [|? ? S F]; subst. simpl.
    destruct I as [E|I].
    + injection E as -> ->. now rewrite Z.eqb_refl.
    + destruct (Z.eqb_spec k k') as [->|N]; [|now apply IH].
      rewrite Forall_forall in F.
      specialize (F k' (in_map fst _ _ I)). lia.
Qed.

Lemma decode_encode :
  forall st,
    StdMap.ok st -> Forall entry_ok st -> decode (encode st) = decoded st.
Proof.
  intros st OK F. rewrite encode_spec.
  change (str "{" ++ join (str ",") (List.map encode_entry st) ++ str "}")
    with ("{"%char :: join (str ",") (List.map encode_entry st) ++ ["}"%char]).
  rewrite decode_wrapped, parse_body_segments. unfold top_level_segments.
  destruct st as [|p ps]; [reflexivity|].
  rewrite (decode_entries ps p StdMap.empty); auto.
  constructor.
Qed.

Lemma store_equiv_refl : forall st, store_equiv st st.
Proof.
  intros st id. destruct (StdMap.find id st); auto. intros d. tauto.
Qed.

(** C3, as the code has it.  A valid store whose ids fit an [int] and
    whose dates are free of commas, braces, brackets and the five
    escaped characters is read back from its own encoding: decoding
    succeeds and returns that very store. *)
Theorem decode_encode_roundtrip :
  forall st : Store,
    StdMap.ok st -> keys_in_range st -> valid_store st -> plain_store st ->
    decode (encode st) = decoded st
    /\ loaded (decode (encode st)) = true
    /\ store_equiv (load_store (decode (encode st))) st.
Proof.
  intros st OK R V P.
  assert (E : decode (encode st) = decoded st).
  { apply decode_encode; auto.
    apply Forall_forall. intros [k v] I.
    pose proof (find_In_ok st k v OK I) as Fd.
    split; [|split]; simpl.
    - apply R. apply (in_map fst _ _ I).
    - apply (proj1 (V k v Fd)).
    - apply Forall_forall. intros d Hd. apply (P k v d Fd Hd). }
  rewrite E. repeat split. apply store_equiv_refl.
Qed.

Lemma decode_encode_roundtrip_witness :
  let st := [(-7, []); (101, [str "2025-07-01"; str "2025-07-02"]);
             (102, [str "2025-07-01"])] in
  decode (encode st) = decoded st
  /\ loaded (decode (encode st)) = true
  /\ store_equiv (load_store (decode (encode st))) st.
Proof.
  apply (decode_encode_roundtrip
           [(-7, []); (101, [str "2025-07-01"; str "2025-07-02"]);
            (102, [str "2025-07-01"])]).
  - repeat constructor.
  - intros id H. simpl in H.
    destruct H as [<-|[<-|[<-|[]]]]; vm_compute; split; discriminate.
  - intros id v H. simpl in H.
    repeat match type of H with
    | (if ?b then _ else _) = _ => destruct b
    end; inversion H; subst; split; repeat constructor;
      simpl; intuition discriminate.
  - intros id v d H I. simpl in H.
    repeat match type of H with
    | (if ?b then _ else _) = _ => destruct b
    end; inversion H; subst; simpl in I;
      repeat match type of I with
      | _ \/ _ => destruct I as [<-|I]
      | False => destruct I
      end; reflexivity.
Defined.

(** C3, as the specification has it, fails: a date with a comma is cut
    in two by the decoder. *)
Lemma roundtrip_fails_on_comma :
  StdMap.ok comma_store /\ valid_store comma_store /\
  ~ (loaded (decode (encode comma_store)) = true /\
     store_equiv (load_store (decode (encode comma_store))) comma_store).
Proof.
  split; [repeat constructor|]. split.
  - intros id v H. unfold comma_store in H. simpl in H.
    destruct (id =? 1); inversion H; subst.
    split; repeat constructor. simpl. tauto.
  - intros [_ E]. specialize (E 1).
    vm_compute in E. destruct (E (str "a,b")) as [_ E2].
    destruct E2 as [E2|[E2|[]]]; [now left|discriminate E2|discriminate E2].
Qed.

(** Each character [plain_char] excludes does break the round trip: two
    students whose only date is that character are not read back. *)
Lemma plain_char_needed :
  forall c,
    plain_char c = false ->
    StdMap.ok (two_students [c]) /\ valid_store (two_students [c]) /\
    ~ store_equiv (load_store (decode (encode (two_students [c]))))
                  (two_students [c]).
Proof.
  intros c H. split; [repeat constructor|]. split.
  - intros id v F. unfold two_students in F. simpl in F.
    destruct (id =? 1); [|destruct (id =? 2)]; inversion F; subst;
      split; repeat constructor; simpl; tauto.
  - intros E. specialize (E 1). pose (x := [c]).
    destruct c as [[] [] [] [] [] [] [] []];
      vm_compute in H; try discriminate H;
      vm_compute in E;
      destruct (E x) as [_ E2];
      specialize (E2 (or_introl eq_refl));
      repeat (destruct E2 as [E2|E2]; [discriminate E2|]);
      destruct E2.
Qed.


(** * Further properties *)

(** ** [markAttendance]: what a call changes *)

Lemma date_set_present :
  forall id d st,
    In d (date_set id st) -> exists v, StdMap.find id st = Some v.
Proof.
  intros id d st I. unfold date_set, StdMap.get in I.
  destruct (StdMap.find id st) as [v|]; [now exists v|destruct I].
Qed.

Lemma marked_dates_In :
  forall date v d, In d (marked_dates date v) <-> In d v \/ d = date.
Proof.
  intros date v d. unfold marked_dates.
  destruct (vector_contains date v) eqn:C.
  - apply vector_contains_In in C. split; auto.
    intros [H| ->]; auto.
  - split.
    + intros H. apply (Permutation_in _ (std_sort_perm _)) in H.
      apply in_app_or in H. destruct H as [H|[H|[]]]; auto.
    + intros H.
      apply (Permutation_in _ (Permutation_sym (std_sort_perm _))).
      apply in_or_app. destruct H as [H| ->]; [now left|right; now left].
Qed.

(** The entry of every student after one call. *)
Lemma find_markAttendance :
  forall id date st k,
    StdMap.find k (snd (markAttendance id date st))
    = if k =? id then Some (marked_dates date (date_set id st))
      else StdMap.find k st.
Proof.
  intros id date st k. unfold marked_dates.
  destruct (Z.eqb_spec k id) as [->|N].
  - destruct (vector_contains date (date_set id st)) eqn:C.
    + rewrite markAttendance_present by now apply vector_contains_In.
      simpl. apply find_touch_same.
    + rewrite markAttendance_fresh by now apply vector_contains_false.
      simpl. rewrite find_sort_at_same. unfold StdMap.get at 1.
      now rewrite find_push_back_same, get_touch.
  - apply markAttendance_other. congruence.
Qed.

Lemma date_set_markAttendance :
  forall id date st k,
    date_set k (snd (markAttendance id date st))
    = if k =? id then marked_dates date (date_set id st) else date_set k st.
Proof.
  intros id date st k. unfold date_set at 1, StdMap.get.
  rewrite find_markAttendance. now destruct (k =? id).
Qed.

Lemma fst_markAttendance :
  forall id date st,
    fst (markAttendance id date st)
    = if vector_contains date (date_set id st)
      then mark_duplicate id date else mark_success id date.
Proof.
  intros id date st.
  destruct (vector_contains date (date_set id st)) eqn:C.
  - now rewrite markAttendance_present by now apply vector_contains_In.
  - now rewrite markAttendance_fresh by now apply vector_contains_false.
Qed.

(** X1.  Marking a date the student already has changes nothing: the
    call answers with the duplicate error and the store after it is the
    store before it. *)
Theorem duplicate_mark_changes_nothing :
  forall (st : Store) (id : Z) (date : cstring),
    In date (date_set id st) ->
    markAttendance id date st = (mark_duplicate id date, st).
Proof.
  intros st id date I. rewrite markAttendance_present by assumption.
  destruct (date_set_present id date st I) as [v F].
  now rewrite (touch_present id st v F).
Qed.

Lemma duplicate_mark_changes_nothing_witness :
  let st := [(101, [str "2025-07-01"; str "2025-07-02"])] in
  markAttendance 101 (str "2025-07-02") st
  = (mark_duplicate 101 (str "2025-07-02"), st).
Proof.
  apply (duplicate_mark_changes_nothing
           [(101, [str "2025-07-01"; str "2025-07-02"])] 101 (str "2025-07-02")).
  simpl. right. left. reflexivity.
Defined.

Lemma mark_adds_exactly_its_date_aux :
  forall st id date k d,
    In d (date_set k (snd (markAttendance id date st)))
    <-> In d (date_set k st) \/ (k = id /\ d = date).
Proof.
  intros st id date k d. rewrite date_set_markAttendance.
  destruct (Z.eqb_spec k id) as [->|N].
  - rewrite marked_dates_In. tauto.
  - tauto.
Qed.

(** X2.  A call never removes a date and adds at most its own: after
    [markAttendance id date], a date is in the DateSet of a student
    exactly when it was there before or it is [date] and the student is
    [id]. *)
Theorem mark_adds_exactly_its_date :
  forall (st : Store) (id : Z) (date : cstring) (k : Z) (d : cstring),
    In d (date_set k (snd (markAttendance id date st)))
    <-> In d (date_set k st) \/ (k = id /\ d = date).
Proof.
  intros st id date k d. rewrite date_set_markAttendance.
  destruct (Z.eqb_spec k id) as [->|N].
  - rewrite marked_dates_In. tauto.
  - tauto.
Qed.

(** ** [markAttendance]: the order of calls *)

Lemma marked_dates_sorted :
  forall date v, Sorted str_le v -> Sorted str_le (marked_dates date v).
Proof.
  intros date v H. unfold marked_dates.
  destruct (vector_contains date v); auto using std_sort_sorted.
Qed.

Lemma marked_dates_comm :
  forall d1 d2 v,
    marked_dates d1 (marked_dates d2 v) = marked_dates d2 (marked_dates d1 v).
Proof.
  intros d1 d2 v.
  destruct (cstring_dec d1 d2) as [->|N]; [reflexivity|].
  assert (C12 : vector_contains d1 (marked_dates d2 v) = vector_contains d1 v).
  { destruct (vector_contains d1 v) eqn:C.
    - apply vector_contains_In. apply marked_dates_In. left.
      now apply vector_contains_In.
    - apply vector_contains_false. rewrite marked_dates_In.
      apply vector_contains_false in C. tauto. }
  assert (C21 : vector_contains d2 (marked_dates d1 v) = vector_contains d2 v).
  { destruct (vector_contains d2 v) eqn:C.
    - apply vector_contains_In. apply marked_dates_In. left.
      now apply vector_contains_In.
    - apply vector_contains_false. rewrite marked_dates_In.
      apply vector_contains_false in C. intros [H|H]; auto. }
  unfold marked_dates at 1 3. rewrite C12, C21.
  unfold marked_dates.
  destruct (vector_contains d1 v) eqn:C1;
    destruct (vector_contains d2 v) eqn:C2; auto.
  apply sorted_permutation_unique; try apply std_sort_sorted.
  rewrite !std_sort_perm.
  rewrite <- !app_assoc. apply Permutation_app_head. apply perm_swap.
Qed.

Lemma markAttendance_comm :
  forall st id1 d1 id2 d2,
    StdMap.ok st ->
    snd (markAttendance id1 d1 (snd (markAttendance id2 d2 st)))
    = snd (markAttendance id2 d2 (snd (markAttendance id1 d1 st))).
Proof.
  intros st id1 d1 id2 d2 OK.
  apply map_extensionality; auto using ok_markAttendance.
  intros k. rewrite !find_markAttendance, !date_set_markAttendance.
  destruct (Z.eqb_spec id1 id2) as [->|N].
  - rewrite Z.eqb_refl. destruct (k =? id2); auto.
    f_equal. apply marked_dates_comm.
  - destruct (Z.eqb_spec id2 id1) as [E|_]; [congruence|].
    destruct (Z.eqb_spec k id1) as [E1|N1];
      destruct (Z.eqb_spec k id2) as [E2|N2]; try congruence; auto.
Qed.

Lemma ok_mark_all :
  forall calls st, StdMap.ok st -> StdMap.ok (mark_all calls st).
Proof.
  induction calls as [|c calls IH]; simpl; intros st H; auto.
  apply IH. now apply ok_markAttendance.
Qed.

(** X3.  The store after a batch of marks does not depend on the order
    of the calls: two call sequences that are permutations of each other
    lead from a well-formed store to the same store. *)
Theorem mark_order_irrelevant :
  forall (calls calls' : list (Z * cstring)) (st : Store),
    StdMap.ok st -> Permutation calls calls' ->
    mark_all calls st = mark_all calls' st.
Proof.
  intros calls calls' st OK P. revert st OK.
  induction P as [|c l l' P IH|c1 c2 l|l l' l'' P1 IH1 P2 IH2]; intros st OK.
  - reflexivity.
  - simpl. apply IH. now apply ok_markAttendance.
  - simpl. f_equal. now apply markAttendance_comm.
  - rewrite IH1 by assumption. now apply IH2.
Qed.

Lemma mark_order_irrelevant_witness :
  mark_all [(102, str "2025-07-01"); (101, str "2025-07-02");
            (101, str "2025-07-01")] StdMap.empty
  = mark_all [(101, str "2025-07-01"); (102, str "2025-07-01");
              (101, str "2025-07-02")] StdMap.empty.
Proof.
  apply (mark_order_irrelevant
           [(102, str "2025-07-01"); (101, str "2025-07-02");
            (101, str "2025-07-01")]
           [(101, str "2025-07-01"); (102, str "2025-07-01");
            (101, str "2025-07-02")] StdMap.empty).
  - constructor.
  - apply Permutation_sym.
    apply (Permutation_cons_app [(102, str "2025-07-01"); (101, str "2025-07-02")] []).
    reflexivity.
Defined.

(** ** [markAttendance] followed by [viewAttendance] *)

Lemma viewAttendance_found :
  forall st id dates,
    StdMap.find id st = Some dates ->
    viewAttendance id st = view_success id dates.
Proof.
  intros st id dates F. unfold viewAttendance. rewrite F.
  rewrite (view_loop_spec dates []). unfold view_success.
  now rewrite <- !app_assoc.
Qed.

(** X4.  After [markAttendance id date], whatever it answered,
    [viewAttendance id] answers with the success object, and the dates
    it lists are in ascending order (given they were before) and
    include [date]. *)
Theorem view_after_mark :
  forall (st : Store) (id : Z) (date : cstring),
    let dates := marked_dates date (date_set id st) in
    viewAttendance id (snd (markAttendance id date st)) = view_success id dates
    /\ In date dates
    /\ (Sorted str_le (date_set id st) -> Sorted str_le dates).
Proof.
  intros st id date dates. split; [|split].
  - apply viewAttendance_found. rewrite find_markAttendance.
    now rewrite Z.eqb_refl.
  - apply marked_dates_In. now right.
  - apply marked_dates_sorted.
Qed.

Lemma view_after_mark_witness :
  Sorted str_le (marked_dates (str "2025-07-01")
                   (date_set 101 [(101, [str "2025-07-02"])])).
Proof.
  apply (view_after_mark [(101, [str "2025-07-02"])] 101 (str "2025-07-01")).
  repeat constructor.
Defined.

(** ** [getOverallStats] after [markAttendance] *)

Lemma total_entries_cons :
  forall k v m,
    total_entries ((k, v) :: m) = (length v + total_entries m)%nat.
Proof. reflexivity. Qed.

Lemma get_cons :
  forall k k' v m,
    StdMap.get k ((k', v) :: m) = if k =? k' then v else StdMap.get k m.
Proof.
  intros k k' v m. unfold StdMap.get. simpl. now destruct (k =? k').
Qed.

Lemma total_entries_insert :
  forall k v m,
    StdMap.ok m ->
    (total_entries (StdMap.insert k v m) + length (StdMap.get k m)
     = total_entries m + length v)%nat.
Proof.
  unfold StdMap.ok.
  induction m as [|[k' v'] m IH]; intros OK.
  - cbn. lia.
  - simpl in OK. inversion OK as [|? ? OK' F]; subst.
    cbn [StdMap.insert]. rewrite get_cons.
    destruct (Z.ltb_spec k k') as [L|L].
    + destruct (Z.eqb_spec k k'); [lia|].
      unfold StdMap.get. rewrite find_below.
      * rewrite !total_entries_cons. simpl. lia.
      * eapply Forall_impl; [|exact F]. intros; simpl in *; lia.
    + destruct (Z.eqb_spec k k') as [E|N].
      * rewrite !total_entries_cons. lia.
      * rewrite !total_entries_cons. specialize (IH OK'). lia.
Qed.

Lemma size_insert :
  forall k v m,
    StdMap.ok m ->
    StdMap.size (StdMap.insert k v m)
    = (StdMap.size m + match StdMap.find k m with Some _ => 0 | None => 1 end)%nat.
Proof.
  unfold StdMap.ok, StdMap.size.
  induction m as [|[k' v'] m IH]; intros OK.
  - reflexivity.
  - simpl in OK. inversion OK as [|? ? OK' F]; subst.
    cbn [StdMap.insert StdMap.find].
    destruct (Z.ltb_spec k k') as [L|L].
    + destruct (Z.eqb_spec k k'); [lia|].
      rewrite find_below.
      * simpl. lia.
      * eapply Forall_impl; [|exact F]. intros; simpl in *; lia.
    + destruct (Z.eqb_spec k k') as [E|N].
      * simpl. lia.
      * simpl. rewrite IH by assumption. lia.
Qed.

Lemma find_In :
  forall k v m, StdMap.find k m = Some v -> In (k, v) m.
Proof.
  induction m as [|[k' v'] m IH]; simpl; intros H; [discriminate|].
  destruct (Z.eqb_spec k k') as [->|N].
  - injection H as ->. now left.
  - right. auto.
Qed.

Lemma all_dates_In :
  forall st d,
    StdMap.ok st ->
    (In d (all_dates st) <-> exists k, In d (date_set k st)).
Proof.
  intros st d OK. unfold all_dates. rewrite in_flat_map. split.
  - intros [[k v] [I Hd]]. exists k. unfold date_set, StdMap.get.
    now rewrite (find_In_ok st k v OK I).
  - intros [k Hd]. destruct (date_set_present k d st Hd) as [v F].
    exists (k, v). split; [now apply find_In|].
    unfold date_set, StdMap.get in Hd. now rewrite F in Hd.
Qed.

Lemma count_distinct_ext :
  forall (l1 l2 : list cstring),
    (forall x, In x l1 <-> In x l2) ->
    count_distinct cstring_dec l1 = count_distinct cstring_dec l2.
Proof.
  intros l1 l2 H. unfold count_distinct. apply Permutation_length.
  apply NoDup_Permutation; try apply NoDup_nodup.
  intros x. rewrite !nodup_In. apply H.
Qed.

Lemma getOverallStats_exact :
  forall st,
    StdMap.ok st ->
    Z.of_nat (StdMap.size st) <= INT_MAX ->
    Z.of_nat (total_entries st) <= INT_MAX ->
    getOverallStats st
    = stats_json (Z.of_nat (StdMap.size st))
                 (Z.of_nat (count_distinct cstring_dec (all_dates st)))
                 (Z.of_nat (total_entries st)).
Proof.
  intros st OK H1 H2. unfold getOverallStats.
  change (0, @nil cstring) with (wrap_int 0, @nil cstring).
  rewrite stats_loop_spec. cbn [fst snd].
  rewrite unique_dates_count.
  rewrite !wrap_int_small; auto;
    unfold in_int_range, INT_MIN, INT_MAX in *; lia.
Qed.

Lemma get_of_find :
  forall k m v, StdMap.find k m = Some v -> StdMap.get k m = v.
Proof. intros k m v F. unfold StdMap.get. now rewrite F. Qed.

Lemma fresh_mark_counts :
  forall st id date,
    StdMap.ok st -> ~ In date (date_set id st) ->
    let st' := snd (markAttendance id date st) in
    StdMap.size st'
    = (StdMap.size st
       + match StdMap.find id st with Some _ => 0 | None => 1 end)%nat
    /\ total_entries st' = S (total_entries st).
Proof.
  intros st id date OK NI st'. unfold st'.
  rewrite markAttendance_fresh by assumption. cbn [snd].
  set (T := StdMap.touch id st).
  assert (OKT : StdMap.ok T) by now apply ok_touch.
  assert (FT : StdMap.find id T = Some (StdMap.get id st))
    by apply find_touch_same.
  assert (ST : StdMap.size T
               = (StdMap.size st
                  + match StdMap.find id st with Some _ => 0 | None => 1 end)%nat
               /\ total_entries T = total_entries st).
  { unfold T, StdMap.touch.
    destruct (StdMap.find id st) as [v|] eqn:F.
    - split; lia.
    - split.
      + rewrite size_insert, F by assumption. reflexivity.
      + pose proof (total_entries_insert id [] st OK) as E.
        unfold StdMap.get in E. rewrite F in E. simpl in E. lia. }
  set (P := push_back_at id date T).
  assert (OKP : StdMap.ok P) by now apply ok_push_back_at.
  assert (FP : StdMap.find id P = Some (StdMap.get id st ++ [date])).
  { unfold P. rewrite find_push_back_same. unfold T. now rewrite get_touch. }
  assert (SP : StdMap.size P = StdMap.size T
               /\ total_entries P = S (total_entries T)).
  { unfold P, push_back_at. rewrite (touch_present id T _ FT).
    rewrite (get_of_find id T _ FT). split.
    - rewrite size_insert, FT by assumption. lia.
    - pose proof (total_entries_insert id (StdMap.get id st ++ [date]) T OKT)
        as E.
      rewrite (get_of_find id T _ FT) in E.
      rewrite length_app in E. simpl in E. lia. }
  unfold sort_at. rewrite (touch_present id P _ FP).
  rewrite (get_of_find id P _ FP). split.
  - rewrite size_insert, FP by assumption. lia.
  - pose proof (total_entries_insert id
                  (std_sort (StdMap.get id st ++ [date])) P OKP) as E.
    rewrite (get_of_find id P _ FP) in E.
    rewrite (Permutation_length (std_sort_perm _)) in E. lia.
Qed.

(** X5.  A successful mark shows in the statistics as exactly one more
    attendance entry, one more student exactly when the id was new, and
    one more unique date exactly when no student had the date (the
    counts staying below the [int] bound). *)
Theorem stats_after_fresh_mark :
  forall (st : Store) (id : Z) (date : cstring),
    StdMap.ok st -> ~ In date (date_set id st) ->
    Z.of_nat (StdMap.size st) < INT_MAX ->
    Z.of_nat (total_entries st) < INT_MAX ->
    getOverallStats (snd (markAttendance id date st))
    = stats_json
        (Z.of_nat (StdMap.size st)
         + match StdMap.find id st with Some _ => 0 | None => 1 end)
        (Z.of_nat (count_distinct cstring_dec (date :: all_dates st)))
        (Z.of_nat (total_entries st) + 1).
Proof.
  intros st id date OK NI H1 H2.
  destruct (fresh_mark_counts st id date OK NI) as [ES ET].
  assert (OK' : StdMap.ok (snd (markAttendance id date st)))
    by now apply ok_markAttendance.
  rewrite getOverallStats_exact; auto.
  - rewrite ES, ET. f_equal.
    + destruct (StdMap.find id st); lia.
    + f_equal. apply count_distinct_ext. intros d.
      rewrite (all_dates_In _ d OK'). simpl. rewrite (all_dates_In _ d OK).
      split.
      * intros [k Hk]. apply mark_adds_exactly_its_date_aux in Hk.
        destruct Hk as [Hk|[_ ->]]; [right; now exists k|now left].
      * intros [<-|[k Hk]].
        -- exists id. apply mark_adds_exactly_its_date_aux. auto.
        -- exists k. apply mark_adds_exactly_its_date_aux. auto.
    + lia.
  - rewrite ES. destruct (StdMap.find id st); lia.
  - rewrite ET. lia.
Qed.

Lemma stats_after_fresh_mark_witness :
  getOverallStats
    (snd (markAttendance 102 (str "2025-07-01")
            [(101, [str "2025-07-01"; str "2025-07-02"])]))
  = stats_json 2 2 3.
Proof.
  apply (stats_after_fresh_mark
           [(101, [str "2025-07-01"; str "2025-07-02"])] 102 (str "2025-07-01")).
  - repeat constructor.
  - simpl. tauto.
  - vm_compute. reflexivity.
  - vm_compute. reflexivity.
Defined.

(** ** What [loadData] guarantees about the store *)

Lemma find_read_dates_other :
  forall fuel ss k k' att,
    k <> k' ->
    StdMap.find k' (read_dates fuel ss k att) = StdMap.find k' att.
Proof.
  induction fuel as [|fuel IH]; intros ss k k' att N; simpl; auto.
  destruct (getline ","%char ss) as [[seg ss']|]; auto.
  rewrite IH by assumption. now apply find_push_back_other.
Qed.

Lemma sorted_load_dates :
  forall value k att,
    sorted_store att -> sorted_store (load_dates value k att).
Proof.
  intros value k att H id v F. unfold load_dates in F.
  destruct (Z.eq_dec k id) as [->|N].
  - rewrite find_sort_at_same in F. injection F as <-.
    apply std_sort_sorted.
  - rewrite find_sort_at_other, find_read_dates_other in F by assumption.
    eauto.
Qed.

Lemma sorted_process_segment :
  forall seg att st,
    sorted_store att -> process_segment seg att = Ok st -> sorted_store st.
Proof.
  intros seg att st H. unfold process_segment.
  destruct (find_char ":"%char seg); [|now intros [= <-]].
  destruct (stoi _); simpl; [|discriminate].
  destruct (enclosed _ _ _); intros [= <-]; auto using sorted_load_dates.
Qed.

Lemma sorted_process_last_segment :
  forall seg att st,
    sorted_store att -> process_last_segment seg att = Ok st -> sorted_store st.
Proof.
  intros seg att st H. unfold process_last_segment.
  destruct (find_char ":"%char seg); [|now intros [= <-]].
  destruct (stoi _); simpl; [|discriminate].
  intros [= <-]. auto using sorted_load_dates.
Qed.

Lemma sorted_run_segments :
  forall segs att st,
    sorted_store att -> run_segments segs att = Ok st -> sorted_store st.
Proof.
  induction segs as [|seg segs IH]; intros att st H; simpl.
  - now intros [= <-].
  - destruct (process_segment seg att) as [att'|e] eqn:P; [|discriminate].
    simpl. apply IH. eapply sorted_process_segment; eauto.
Qed.

Lemma sorted_store_empty : sorted_store StdMap.empty.
Proof. intros id v F. discriminate F. Qed.

Lemma sorted_loadData :
  forall file att,
    sorted_store att -> sorted_store (load_store (loadData file att)).
Proof.
  intros file att H. unfold loadData.
  destruct file as [json|]; simpl; auto.
  destruct (length json =? 0)%nat; simpl; auto.
  destruct (_ || _ || _); simpl; auto.
  rewrite parse_body_segments.
  destruct (run_segments _ att) as [att'|e] eqn:R; simpl;
    [|apply sorted_store_empty].
  destruct (process_last_segment _ att') as [st|e] eqn:L; simpl;
    [|apply sorted_store_empty].
  eapply sorted_process_last_segment; [|exact L].
  eapply sorted_run_segments; eauto.
Qed.

Lemma sorted_date_set :
  forall id st, sorted_store st -> Sorted str_le (date_set id st).
Proof.
  intros id st H. unfold date_set, StdMap.get.
  destruct (StdMap.find id st) eqn:F; [eauto|constructor].
Qed.

Lemma sorted_markAttendance :
  forall id date st,
    sorted_store st -> sorted_store (snd (markAttendance id date st)).
Proof.
  intros id date st H k v F. rewrite find_markAttendance in F.
  destruct (k =? id).
  - injection F as <-. apply marked_dates_sorted. now apply sorted_date_set.
  - eauto.
Qed.

(** X6.  Whatever the data file holds (dates in any order, repeated
    dates, the same id in several entries) and whatever is marked
    afterwards, every DateSet of the store is in ascending order: each
    entry [loadData] reads ends with a sort, and [markAttendance] sorts
    after every insertion. *)
Theorem dates_always_sorted :
  forall (ops : list operation) (id : Z) (dates : vector),
    StdMap.find id (replay ops) = Some dates -> Sorted str_le dates.
Proof.
  intros ops. unfold replay.
  assert (G : forall st, sorted_store st ->
                         sorted_store (fold_left apply_operation ops st)).
  { induction ops as [|op ops IH]; intros st H; simpl; auto.
    apply IH. destruct op; simpl;
      auto using sorted_loadData, sorted_markAttendance. }
  exact (G StdMap.empty sorted_store_empty).
Qed.

Lemma dates_always_sorted_witness :
  Sorted str_le [str "a"; str "a"; str "b"; str "c"].
Proof.
  apply (dates_always_sorted
           [OpLoad (Some (lit "{'7':['c', 'a'],'7':['a']}"));
            OpMark 7 (str "b")] 7).
  reflexivity.
Defined.

Lemma stoi_range : forall s v, stoi s = Ok v -> in_int_range v.
Proof.
  intros s v. unfold stoi.
  destruct (match skip_spaces s with
            | [] => (false, skip_spaces s)
            | c :: s' =>
                if Ascii.eqb c "-"%char then (true, s')
                else if Ascii.eqb c "+"%char then (false, s')
                else (false, skip_spaces s)
            end) as [negative s2].
  destruct (read_digits s2 0 0) as [magnitude count].
  destruct count; [discriminate|].
  destruct (_ && _) eqn:R; [|discriminate].
  intros [= <-]. apply andb_true_iff in R. destruct R as [R1 R2].
  apply Z.leb_le in R1, R2. split; assumption.
Qed.

Lemma keys_touch_In :
  forall x k m,
    In x (StdMap.keys (StdMap.touch k m)) -> x = k \/ In x (StdMap.keys m).
Proof.
  intros x k m. unfold StdMap.touch.
  destruct (StdMap.find k m); [auto|apply keys_insert_In].
Qed.

Lemma keys_push_back_In :
  forall x k d m,
    In x (StdMap.keys (push_back_at k d m)) -> x = k \/ In x (StdMap.keys m).
Proof.
  intros x k d m H. unfold push_back_at in H.
  apply keys_insert_In in H. destruct H as [H|H]; auto.
  now apply keys_touch_In in H.
Qed.

Lemma keys_sort_at_In :
  forall x k m,
    In x (StdMap.keys (sort_at k m)) -> x = k \/ In x (StdMap.keys m).
Proof.
  intros x k m H. unfold sort_at in H.
  apply keys_insert_In in H. destruct H as [H|H]; auto.
  now apply keys_touch_In in H.
Qed.

Lemma keys_read_dates_In :
  forall fuel ss x k m,
    In x (StdMap.keys (read_dates fuel ss k m)) -> x = k \/ In x (StdMap.keys m).
Proof.
  induction fuel as [|fuel IH]; intros ss x k m H; simpl in H; auto.
  destruct (getline ","%char ss) as [[seg ss']|]; auto.
  apply IH in H. destruct H as [H|H]; auto.
  now apply keys_push_back_In in H.
Qed.

Lemma range_load_dates :
  forall value k att,
    in_int_range k -> keys_in_range att ->
    keys_in_range (load_dates value k att).
Proof.
  intros value k att R H x I. unfold load_dates in I.
  apply keys_sort_at_In in I. destruct I as [->|I]; auto.
  apply keys_read_dates_In in I. destruct I as [->|I]; auto.
Qed.

Lemma range_process_segment :
  forall seg att st,
    keys_in_range att -> process_segment seg att = Ok st -> keys_in_range st.
Proof.
  intros seg att st H. unfold process_segment.
  destruct (find_char ":"%char seg); [|now intros [= <-]].
  destruct (stoi _) as [id|e] eqn:T; simpl; [|discriminate].
  apply stoi_range in T.
  destruct (enclosed _ _ _); intros [= <-]; auto using range_load_dates.
Qed.

Lemma range_process_last_segment :
  forall seg att st,
    keys_in_range att -> process_last_segment seg att = Ok st ->
    keys_in_range st.
Proof.
  intros seg att st H. unfold process_last_segment.
  destruct (find_char ":"%char seg); [|now intros [= <-]].
  destruct (stoi _) as [id|e] eqn:T; simpl; [|discriminate].
  apply stoi_range in T. intros [= <-]. auto using range_load_dates.
Qed.

Lemma range_run_segments :
  forall segs att st,
    keys_in_range att -> run_segments segs att = Ok st -> keys_in_range st.
Proof.
  induction segs as [|seg segs IH]; intros att st H; simpl.
  - now intros [= <-].
  - destruct (process_segment seg att) as [att'|e] eqn:P; [|discriminate].
    simpl. apply IH. eapply range_process_segment; eauto.
Qed.

(** X7.  [loadData] never brings an id outside the [int] range into the
    store: every key it adds went through [std::stoi], and a key that
    does not fit makes the whole load fail. *)
Theorem loaded_ids_fit_int :
  forall (file : option cstring) (att : Store),
    keys_in_range att -> keys_in_range (load_store (loadData file att)).
Proof.
  intros file att H. unfold loadData.
  destruct file as [json|]; simpl; auto.
  destruct (length json =? 0)%nat; simpl; auto.
  destruct (_ || _ || _); simpl; auto.
  rewrite parse_body_segments.
  destruct (run_segments _ att) as [att'|e] eqn:R; simpl;
    [|intros x []].
  destruct (process_last_segment _ att') as [st|e] eqn:L; simpl;
    [|intros x []].
  eapply range_process_last_segment; [|exact L].
  eapply range_run_segments; eauto.
Qed.

Lemma loaded_ids_fit_int_witness :
  keys_in_range
    (load_store (loadData (Some (lit "{'-5':['a'],2147483647:['b']}"))
                          StdMap.empty)).
Proof.
  apply (loaded_ids_fit_int (Some (lit "{'-5':['a'],2147483647:['b']}"))
           StdMap.empty).
  intros id H. destruct H.
Defined.

(** ** Reading back a store whose DateSets are not in order *)

Lemma load_dates_unsorted :
  forall k ds att,
    below k att -> Forall plain_date ds ->
    load_dates (dates_text ds) k att = att ++ [(k, std_sort ds)].
Proof.
  intros k ds att B P. unfold load_dates.
  rewrite read_dates_text by (auto; lia).
  destruct ds as [|d ds].
  - simpl. now apply sort_at_new.
  - simpl fold_left. rewrite push_back_new, push_all_last by assumption.
    now rewrite sort_at_last.
Qed.

Lemma process_entry_unsorted :
  forall k (ds : vector) att,
    in_int_range k -> below k att -> Forall plain_date ds ->
    process_segment (encode_entry (k, ds)) att = Ok (att ++ [(k, std_sort ds)])
    /\ process_last_segment (encode_entry (k, ds)) att
       = Ok (att ++ [(k, std_sort ds)]).
Proof.
  intros k ds att R B P.
  destruct (entry_key_value k ds) as (E1 & E2 & E3).
  unfold process_segment, process_last_segment.
  rewrite E1, E2, E3, (stoi_to_string k R). cbn [bind].
  rewrite enclosed_wrap, substr_wrap.
  now rewrite load_dates_unsorted.
Qed.

Lemma decode_entries_unsorted :
  forall (ps : list (Z * vector)) (p : Z * vector) att,
    Forall (fun pair : Z * vector => in_int_range (fst pair)
                        /\ Forall plain_date (snd pair)) (p :: ps) ->
    StronglySorted Z.lt (List.map fst (p :: ps)) ->
    below (fst p) att ->
    bind (run_segments
            (fst (split_top (join (str ",") (List.map encode_entry (p :: ps)))
                            (0, 0) [])) att)
         (process_last_segment
            (snd (split_top (join (str ",") (List.map encode_entry (p :: ps)))
                            (0, 0) [])))
    = Ok (att ++ sort_all (p :: ps)).
Proof.
  induction ps as [|p' ps IH]; intros [k ds] att F S B.
  - inversion F as [|? ? (R & Pl) _]; subst. simpl in R, Pl, B.
    cbn [List.map join].
    rewrite <- (app_nil_r (encode_entry (k, ds))).
    rewrite split_top_entry by assumption.
    cbn [split_top fst snd run_segments bind app].
    now apply process_entry_unsorted.
  - inversion F as [|? ? (R & Pl) F']; subst. simpl in R, Pl, B.
    inversion S as [|? ? S' L]; subst.
    change (join (str ",") (List.map encode_entry ((k, ds) :: p' :: ps)))
      with (encode_entry (k, ds)
              ++ ","%char :: join (str ",") (List.map encode_entry (p' :: ps))).
    rewrite split_top_entry by assumption.
    cbn [split_top]. change (count_nesting ","%char (0, 0)) with (0, 0).
    cbn [Ascii.eqb Bool.eqb andb fst snd Z.eqb app run_segments].
    rewrite (proj1 (process_entry_unsorted k ds att R B Pl)). cbn [bind].
    rewrite IH; auto.
    + now rewrite <- app_assoc.
    + apply below_app.
      * eapply Forall_impl; [|exact B]. intros q Hq.
        inversion L; subst. simpl in *. lia.
      * inversion L; subst. assumption.
Qed.

Lemma find_sort_all :
  forall id st,
    StdMap.find id (sort_all st) = option_map std_sort (StdMap.find id st).
Proof.
  induction st as [|[k v] st IH]; simpl; auto.
  destruct (id =? k); auto.
Qed.

(** X8.  Saving and loading again normalises the store: whenever the
    ids fit an [int] and the dates are free of commas, braces, brackets
    and the escaped characters, decoding the encoded store succeeds and
    gives the same students, each with the same dates (repeated ones
    included) put in ascending order. *)
Theorem decode_encode_sorts :
  forall st : Store,
    StdMap.ok st -> keys_in_range st -> plain_store st ->
    decode (encode st) = decoded (sort_all st)
    /\ (forall id,
           Permutation (date_set id (load_store (decode (encode st))))
                       (date_set id st)).
Proof.
  intros st OK R P.
  assert (E : decode (encode st) = decoded (sort_all st)).
  { rewrite encode_spec.
    change (str "{" ++ join (str ",") (List.map encode_entry st) ++ str "}")
      with ("{"%char :: join (str ",") (List.map encode_entry st) ++ ["}"%char]).
    rewrite decode_wrapped, parse_body_segments. unfold top_level_segments.
    destruct st as [|p ps]; [reflexivity|].
    rewrite (decode_entries_unsorted ps p StdMap.empty); auto.
    - apply Forall_forall. intros [k v] I.
      pose proof (find_In_ok _ k v OK I) as Fd. split; simpl.
      + apply R. apply (in_map fst _ _ I).
      + apply Forall_forall. intros d Hd. apply (P k v d Fd Hd).
    - constructor. }
  split; [exact E|].
  intros id. rewrite E. simpl. unfold date_set, StdMap.get.
  rewrite find_sort_all.
  destruct (StdMap.find id st); simpl; auto using std_sort_perm.
Qed.

Lemma decode_encode_sorts_witness :
  let st := [(7, [str "b"; str "a"; str "b"])] in
  decode (encode st) = decoded (sort_all st)
  /\ (forall id,
         Permutation (date_set id (load_store (decode (encode st))))
                     (date_set id st)).
Proof.
  apply (decode_encode_sorts [(7, [str "b"; str "a"; str "b"])]).
  - repeat constructor.
  - intros id H. simpl in H. destruct H as [<-|[]].
    vm_compute. split; discriminate.
  - intros id v d H I. simpl in H.
    destruct (id =? 7); inversion H; subst. simpl in I.
    destruct I as [<-|[<-|[<-|[]]]]; reflexivity.
Defined.

(** ** [escape_json_string] loses nothing *)

Lemma unescape_escape_char :
  forall c t, unescape (escape_char c ++ t) = c :: unescape t.
Proof.
  intros c t. unfold escape_char.
  destruct (Ascii.eqb_spec c dquote) as [->|N1]; [reflexivity|].
  destruct (Ascii.eqb_spec c backslash) as [->|N2]; [reflexivity|].
  destruct (Ascii.eqb_spec c newline) as [->|N3]; [reflexivity|].
  destruct (Ascii.eqb_spec c carriage_return) as [->|N4]; [reflexivity|].
  destruct (Ascii.eqb_spec c tab) as [->|N5]; [reflexivity|].
  cbn [app unescape].
  now destruct (Ascii.eqb_spec c backslash).
Qed.

Lemma unescape_escape :
  forall s, unescape (escape_json_string s) = s.
Proof.
  intros s. rewrite escape_json_string_spec.
  induction s as [|c s IH]; [reflexivity|].
  cbn [flat_map]. now rewrite unescape_escape_char, IH.
Qed.

(** X9.  Escaping is injective: two different strings never have the
    same escaped form, so what [saveData] and [viewAttendance] print
    determines the date. *)
Theorem escape_json_string_injective :
  forall s1 s2 : cstring,
    escape_json_string s1 = escape_json_string s2 -> s1 = s2.
Proof.
  intros s1 s2 H.
  rewrite <- (unescape_escape s1), <- (unescape_escape s2).
  now rewrite H.
Qed.

Lemma escape_json_string_injective_witness :
  [backslash; "n"%char] = [backslash; "n"%char].
Proof.
  apply (escape_json_string_injective [backslash; "n"%char] [backslash; "n"%char]).
  reflexivity.
Defined.

(** ** The file is one line *)

Lemma escape_char_one_line : forall c, one_line (escape_char c).
Proof.
  intros c. unfold escape_char, one_line.
  destruct (Ascii.eqb_spec c dquote) as [->|N1];
    [repeat constructor; discriminate|].
  destruct (Ascii.eqb_spec c backslash) as [->|N2];
    [repeat constructor; discriminate|].
  destruct (Ascii.eqb_spec c newline) as [->|N3];
    [repeat constructor; discriminate|].
  destruct (Ascii.eqb_spec c carriage_return) as [->|N4];
    [repeat constructor; discriminate|].
  destruct (Ascii.eqb_spec c tab) as [->|N5];
    [repeat constructor; discriminate|].
  repeat constructor; assumption.
Qed.

Lemma escape_one_line : forall s, one_line (escape_json_string s).
Proof.
  intros s. rewrite escape_json_string_spec. unfold one_line.
  induction s as [|c s IH]; [constructor|].
  cbn [flat_map]. apply Forall_app. split; auto.
  apply escape_char_one_line.
Qed.

Lemma id_char_one_line :
  forall c,
    is_id_char c = true ->
    c <> newline /\ c <> carriage_return /\ c <> tab.
Proof. intros c. char_cases c. Qed.

Lemma to_string_one_line : forall k, one_line (to_string k).
Proof.
  intros k. pose proof (to_string_chars k) as H.
  rewrite forallb_forall in H. apply Forall_forall.
  intros c I. now apply id_char_one_line, H.
Qed.

Lemma encode_entry_one_line : forall pair, one_line (encode_entry pair).
Proof.
  intros [k ds]. unfold encode_entry, quoted, one_line. cbn [fst snd].
  rewrite !Forall_app. repeat split.
  - repeat constructor; discriminate.
  - apply to_string_one_line.
  - repeat constructor; discriminate.
  - repeat constructor; discriminate.
  - apply Forall_join; [repeat constructor; discriminate|].
    apply Forall_map, Forall_forall. intros d _.
    unfold quoted_date, quoted. rewrite !Forall_app. repeat split.
    + repeat constructor; discriminate.
    + apply escape_one_line.
    + repeat constructor; discriminate.
  - repeat constructor; discriminate.
Qed.

(** X10.  The text [saveData] writes is a single line: whatever the
    dates contain, it has no newline, carriage return or tab (those
    inside dates are written as backslash escapes). *)
Theorem encode_one_line : forall st : Store, one_line (encode st).
Proof.
  intros st. rewrite encode_spec. unfold one_line.
  rewrite !Forall_app. repeat split.
  - repeat constructor; discriminate.
  - apply Forall_join; [repeat constructor; discriminate|].
    apply Forall_map, Forall_forall. intros pair _.
    apply encode_entry_one_line.
  - repeat constructor; discriminate.
Qed.

(** ** White space around the dates of the file *)

Lemma find_first_not_of_prefix :
  forall ws c rest,
    Forall (fun x => is_space x = true) ws -> is_space c = false ->
    find_first_not_of whitespace (ws ++ c :: rest) = Some (length ws).
Proof.
  induction ws as [|x ws IH]; intros c rest H N;
    cbn [app find_first_not_of length].
  - unfold is_space in N. now rewrite N.
  - inversion H as [|? ? Hx Hws]; subst. unfold is_space in Hx.
    rewrite Hx, IH by assumption. reflexivity.
Qed.

Lemma find_first_not_of_spaces :
  forall ws,
    Forall (fun x => is_space x = true) ws ->
    find_first_not_of whitespace ws = None.
Proof.
  induction ws as [|x ws IH]; intros H; cbn [find_first_not_of]; auto.
  inversion H as [|? ? Hx Hws]; subst. unfold is_space in Hx.
  now rewrite Hx, IH.
Qed.

Lemma find_last_not_of_spaces :
  forall ws,
    Forall (fun x => is_space x = true) ws ->
    find_last_not_of whitespace ws = None.
Proof.
  induction ws as [|x ws IH]; intros H; cbn [find_last_not_of]; auto.
  inversion H as [|? ? Hx Hws]; subst. unfold is_space in Hx.
  now rewrite IH, Hx.
Qed.

Lemma find_last_not_of_suffix :
  forall s ws,
    Forall (fun x => is_space x = true) ws ->
    find_last_not_of whitespace (s ++ ws) = find_last_not_of whitespace s.
Proof.
  induction s as [|x s IH]; intros ws H; cbn [app find_last_not_of].
  - now apply find_last_not_of_spaces.
  - now rewrite IH.
Qed.

(** X11.  The date loop of [loadData] ignores white space around a
    quoted date, whatever is between the quotes, and reads a piece
    that is only white space as the empty date. *)
Theorem clean_date_ignores_spaces :
  forall ws1 ws2 d : cstring,
    Forall (fun x => is_space x = true) ws1 ->
    Forall (fun x => is_space x = true) ws2 ->
    clean_date (ws1 ++ quoted d ++ ws2) = d /\ clean_date ws1 = [].
Proof.
  intros ws1 ws2 d H1 H2. split.
  - unfold clean_date.
    change (quoted d ++ ws2) with (dquote :: (d ++ [dquote]) ++ ws2).
    rewrite find_first_not_of_prefix by (assumption || reflexivity).
    cbn [erase_front]. rewrite skipn_length_app.
    change (dquote :: (d ++ [dquote]) ++ ws2)
      with (((dquote :: d) ++ [dquote]) ++ ws2).
    rewrite find_last_not_of_suffix by assumption.
    rewrite find_last_not_of_end by reflexivity.
    cbn [erase_after].
    replace (S (length (dquote :: d)))
      with (length ((dquote :: d) ++ [dquote]))
      by (rewrite length_app; simpl; lia).
    rewrite firstn_length_app.
    change ((dquote :: d) ++ [dquote]) with (dquote :: d ++ [dquote]).
    now rewrite enclosed_wrap, substr_wrap.
  - unfold clean_date. rewrite find_first_not_of_spaces by assumption.
    reflexivity.
Qed.

Lemma clean_date_ignores_spaces_witness :
  clean_date (str "  " ++ quoted (str " 2025-07-01 ") ++ [tab; newline])
  = str " 2025-07-01 "
  /\ clean_date (str "  ") = [].
Proof.
  apply (clean_date_ignores_spaces (str "  ") [tab; newline] (str " 2025-07-01 ")).
  - repeat constructor.
  - repeat constructor.
Defined.

(** ** The top-level segments make up the text *)

Lemma join_cons_more :
  forall sep x l, l <> [] -> join sep (x :: l) = x ++ sep ++ join sep l.
Proof. intros sep x [|y l] H; [congruence|reflexivity]. Qed.

Lemma split_top_join :
  forall s counts cur,
    join (str ",") (fst (split_top s counts cur) ++ [snd (split_top s counts cur)])
    = cur ++ s.
Proof.
  induction s as [|c s IH]; intros counts cur.
  - simpl. now rewrite app_nil_r.
  - cbn [split_top].
    destruct (Ascii.eqb c ","%char && (fst (count_nesting c counts) =? 0)
              && (snd (count_nesting c counts) =? 0)) eqn:Sep.
    + cbn [fst snd app].
      rewrite join_cons_more
        by (intros E; apply app_eq_nil in E; destruct E as [_ E];
            discriminate E).
      rewrite IH.
      apply andb_true_iff in Sep. destruct Sep as [Sep _].
      apply andb_true_iff in Sep. destruct Sep as [Sep _].
      apply Ascii.eqb_eq in Sep. now subst c.
    + rewrite IH. now rewrite <- app_assoc.
Qed.

(** X12.  The scanning loop drops no character: the top-level segments
    it cuts the text into, joined by commas again, are the text. *)
Theorem segments_make_up_the_text :
  forall body : cstring, join (str ",") (top_level_entries body) = body.
Proof.
  intros body. unfold top_level_entries, top_level_segments.
  apply (split_top_join body (0, 0) []).
Qed.

(** ** [main]: exit code and output *)

(** X13.  The process exits with code 1 exactly when the command name
    is missing, and with code 0 on every other path: success, usage
    error, unknown command, unparseable roll number, duplicate mark and
    unknown student alike. *)
Theorem main_exit_code :
  forall (what : exception -> cstring) (argv : list cstring)
         (file : option cstring) (can_write : bool),
    proc_exit (main what argv file can_write)
    = if (length argv <? 2)%nat then 1 else 0.
Proof.
  intros what argv file can_write. unfold main, respond.
  destruct (length argv <? 2)%nat; [reflexivity|].
  repeat match goal with
  | |- context [match stoi ?x with _ => _ end] => destruct (stoi x)
  | |- context [if ?b then _ else _] => destruct b
  end; reflexivity.
Qed.

Lemma status_prefix_split :
  lit "{'status': 'success', 'message': 'Attendance marked for Roll No: "
  = lit "{'status': 'success'" ++ lit ", 'message': 'Attendance marked for Roll No: "
  /\ lit "{'status': 'success', 'roll_no': "
     = lit "{'status': 'success'" ++ lit ", 'roll_no': "
  /\ lit "{'status': 'success', 'stats': {"
     = lit "{'status': 'success'" ++ lit ", 'stats': {".
Proof. repeat split; reflexivity. Qed.

Lemma mark_result_status :
  forall id date st,
    exists body,
      fst (markAttendance id date st) = lit "{'status': 'success'" ++ body
      \/ fst (markAttendance id date st) = lit "{'status': 'error'" ++ body.
Proof.
  intros id date st. rewrite fst_markAttendance.
  destruct (vector_contains date (date_set id st)).
  - eexists. right. unfold mark_duplicate. reflexivity.
  - eexists. left. unfold mark_success.
    rewrite (proj1 status_prefix_split), <- app_assoc. reflexivity.
Qed.

Lemma view_result_status :
  forall id st,
    exists body,
      viewAttendance id st = lit "{'status': 'success'" ++ body
      \/ viewAttendance id st = lit "{'status': 'error'" ++ body.
Proof.
  intros id st. destruct (StdMap.find id st) as [dates|] eqn:F.
  - rewrite (viewAttendance_found st id dates F).
    eexists. left. unfold view_success.
    rewrite (proj1 (proj2 status_prefix_split)), <- app_assoc. reflexivity.
  - unfold viewAttendance. rewrite F.
    eexists. right. unfold view_not_found. reflexivity.
Qed.

Lemma stats_result_status :
  forall st,
    exists body, getOverallStats st = lit "{'status': 'success'" ++ body.
Proof.
  intros st. unfold getOverallStats, stats_json.
  eexists. rewrite (proj2 (proj2 status_prefix_split)), <- app_assoc.
  reflexivity.
Qed.

(** X14.  Every run, whatever its arguments and its data file, writes
    to standard output a text that starts as a JSON object whose first
    field is the status, [success] or [error], and that ends with the
    newline of [std::endl]. *)
Theorem main_prints_a_status_line :
  forall (what : exception -> cstring) (argv : list cstring)
         (file : option cstring) (can_write : bool),
    exists body,
      proc_stdout (main what argv file can_write)
      = lit "{'status': 'success'" ++ body ++ [newline]
      \/ proc_stdout (main what argv file can_write)
         = lit "{'status': 'error'" ++ body ++ [newline].
Proof.
  intros what argv file can_write. unfold main, respond. cbv zeta.
  set (system := load_store (loadData file StdMap.empty)).
  destruct (length argv <? 2)%nat.
  { eexists. right. cbn [proc_stdout]. unfold usage_error. reflexivity. }
  destruct (cstring_eqb (nth 1 argv []) (str "mark")).
  { destruct (negb (length argv =? 4)%nat).
    - eexists. right. cbn [proc_stdout]. unfold usage_mark. reflexivity.
    - destruct (stoi (nth 2 argv [])) as [id|e].
      + cbn [proc_stdout].
        destruct (mark_result_status id (nth 3 argv []) system) as [b [E|E]];
          exists b; rewrite E, <- app_assoc; auto.
      + exists (lit ", 'message': 'Invalid roll number or date format: "
                  ++ what e ++ lit "'}").
        right. reflexivity. }
  destruct (cstring_eqb (nth 1 argv []) (str "view")).
  { destruct (negb (length argv =? 3)%nat).
    - eexists. right. cbn [proc_stdout]. unfold usage_view. reflexivity.
    - destruct (stoi (nth 2 argv [])) as [id|e].
      + cbn [proc_stdout].
        destruct (view_result_status id system) as [b [E|E]];
          exists b; rewrite E, <- app_assoc; auto.
      + exists (lit ", 'message': 'Invalid roll number format: "
                  ++ what e ++ lit "'}").
        right. reflexivity. }
  destruct (cstring_eqb (nth 1 argv []) (str "stats")).
  { destruct (negb (length argv =? 2)%nat).
    - eexists. right. cbn [proc_stdout]. unfold usage_stats. reflexivity.
    - cbn [proc_stdout].
      destruct (stats_result_status system) as [b E].
      exists b. rewrite E, <- app_assoc. auto. }
  exists (lit ", 'message': 'Unknown command: " ++ nth 1 argv [] ++ lit "'}").
  right. reflexivity.
Qed.

(** ** [main]: the data file *)

Lemma four_arguments :
  forall argv : list cstring,
    (length argv =? 4)%nat = true ->
    argv = [nth 0 argv []; nth 1 argv []; nth 2 argv []; nth 3 argv []].
Proof.
  intros argv H. apply Nat.eqb_eq in H.
  destruct argv as [|a [|b [|c [|d [|e argv]]]]]; try discriminate H.
  reflexivity.
Qed.

(** X15.  Only a well-formed [mark] command writes the data file: if a
    run leaves the file different from what it was, the command was
    [mark] with exactly two arguments, the first a roll number
    [std::stoi] accepts, and the file could be opened for writing.  So
    [view], [stats], unknown and malformed commands never change it. *)
Theorem only_mark_writes_the_file :
  forall (what : exception -> cstring) (argv : list cstring)
         (file : option cstring) (can_write : bool),
    proc_file (main what argv file can_write) <> file ->
    is_mark_run argv /\ can_write = true.
Proof.
  intros what argv file can_write. unfold main, respond. cbv zeta.
  destruct (length argv <? 2)%nat; [simpl; congruence|].
  destruct (cstring_eqb (nth 1 argv []) (str "mark")) eqn:C.
  - destruct (length argv =? 4)%nat eqn:L; [|simpl; congruence].
    cbn [negb].
    destruct (stoi (nth 2 argv [])) as [id|e] eqn:T; [|simpl; congruence].
    destruct can_write; [|simpl; congruence].
    intros _. split; [|reflexivity].
    exists (nth 0 argv []), (nth 2 argv []), (nth 3 argv []), id.
    split; [|exact T].
    apply cstring_eqb_eq in C. rewrite <- C. now apply four_arguments.
  - repeat match goal with
    | |- context [match stoi ?x with _ => _ end] => destruct (stoi x)
    | |- context [if ?b then _ else _] => destruct b
    end; simpl; congruence.
Qed.

Lemma only_mark_writes_the_file_witness :
  is_mark_run [str "app"; str "mark"; str "101"; str "2025-07-01"]
  /\ true = true.
Proof.
  apply (only_mark_writes_the_file (fun _ => str "stoi")
           [str "app"; str "mark"; str "101"; str "2025-07-01"] None true).
  vm_compute. discriminate.
Defined.

Lemma load_encoded :
  forall st,
    StdMap.ok st -> keys_in_range st -> valid_store st -> plain_store st ->
    loadData (Some (encode st)) StdMap.empty = decoded st.
Proof.
  intros st OK R V P. apply (decode_encode st OK).
  apply Forall_forall. intros [k v] I.
  pose proof (find_In_ok st k v OK I) as Fd.
  split; [|split]; simpl.
  - apply R. apply (in_map fst _ _ I).
  - apply (proj1 (V k v Fd)).
  - apply Forall_forall. intros d Hd. apply (P k v d Fd Hd).
Qed.

(** X16.  A [mark] run on the file of a saved store does to the file
    what [markAttendance] does to the store: started on the encoding of
    a valid store (ids in the [int] range, dates the format carries
    unchanged), [mark <roll_no> <date>] prints the answer of
    [markAttendance], exits with 0, reports nothing on the error stream
    and leaves the encoding of the marked store. *)
Theorem mark_run_updates_the_file :
  forall (what : exception -> cstring) (prog arg date : cstring) (id : Z)
         (st : Store),
    StdMap.ok st -> keys_in_range st -> valid_store st -> plain_store st ->
    stoi arg = Ok id ->
    main what [prog; str "mark"; arg; date] (Some (encode st)) true
    = Build_process_result
        (fst (markAttendance id date st) ++ [newline]) 0 []
        (Some (encode (snd (markAttendance id date st)))).
Proof.
  intros what prog arg date id st OK R V P T. unfold main. cbv zeta.
  rewrite (load_encoded st OK R V P).
  cbn [length Nat.ltb Nat.leb nth Nat.eqb negb].
  change (cstring_eqb (str "mark") (str "mark")) with true.
  cbv iota. rewrite T. reflexivity.
Qed.

Lemma mark_run_updates_the_file_witness :
  let st := [(101, [str "2025-07-01"])] in
  main (fun _ => str "stoi") [str "app"; str "mark"; str " 102"; str "2025-07-01"]
       (Some (encode st)) true
  = Build_process_result
      (fst (markAttendance 102 (str "2025-07-01") st) ++ [newline]) 0 []
      (Some (encode (snd (markAttendance 102 (str "2025-07-01") st)))).
Proof.
  apply (mark_run_updates_the_file (fun _ => str "stoi")
           (str "app") (str " 102") (str "2025-07-01") 102
           [(101, [str "2025-07-01"])]).
  - repeat constructor.
  - intros id H. simpl in H. destruct H as [<-|[]].
    vm_compute. split; discriminate.
  - intros id v H. simpl in H. destruct (id =? 101); inversion H; subst.
    split; repeat constructor. simpl. tauto.
  - intros id v d H I. simpl in H. destruct (id =? 101); inversion H; subst.
    simpl in I. destruct I as [<-|[]]. reflexivity.
  - reflexivity.
Defined.

Lemma keys_find :
  forall k m, In k (StdMap.keys m) -> exists v, StdMap.find k m = Some v.
Proof.
  induction m as [|[k' v'] m IH]; simpl; intros H; [destruct H|].
  destruct (Z.eqb_spec k k') as [->|N]; [now exists v'|].
  destruct H as [H|H]; [congruence|auto].
Qed.

Lemma marked_store_round_trips :
  forall st id date,
    StdMap.ok st -> keys_in_range st -> valid_store st -> plain_store st ->
    in_int_range id -> plain_date date ->
    let st' := snd (markAttendance id date st) in
    StdMap.ok st' /\ keys_in_range st' /\ valid_store st' /\ plain_store st'.
Proof.
  intros st id date OK R V P RI PD st'. unfold st'.
  split; [now apply ok_markAttendance|].
  split; [|split; [now apply markAttendance_valid|]].
  - intros k H. apply keys_find in H. destruct H as [v F].
    rewrite find_markAttendance in F.
    destruct (Z.eqb_spec k id) as [->|N]; auto.
    apply R. destruct (in_dec Z.eq_dec k (StdMap.keys st)) as [I|I]; auto.
    rewrite (find_not_key k st I) in F. discriminate F.
  - intros k v d F I. rewrite find_markAttendance in F.
    destruct (Z.eqb_spec k id) as [->|N].
    + injection F as <-. apply marked_dates_In in I.
      destruct I as [I| ->]; auto.
      destruct (date_set_present id d st I) as [w Fw].
      apply (P id w d Fw). unfold date_set, StdMap.get in I.
      now rewrite Fw in I.
    + eauto.
Qed.

(** X17.  What one run marks the next run shows: after
    [mark <roll_no> <date>] on the file of a valid store (the date being
    one the format carries unchanged), a separate [view <roll_no>] run
    on the file it left prints the success object for that student, with
    [date] among the listed dates, and leaves the file as it is. *)
Theorem view_run_after_mark_run :
  forall (what : exception -> cstring) (prog prog' arg date : cstring)
         (id : Z) (st : Store) (can_write : bool),
    StdMap.ok st -> keys_in_range st -> valid_store st -> plain_store st ->
    stoi arg = Ok id -> plain_date date ->
    let run1 :=
      main what [prog; str "mark"; arg; date] (Some (encode st)) true in
    let run2 :=
      main what [prog'; str "view"; arg] (proc_file run1) can_write in
    let dates := marked_dates date (date_set id st) in
    proc_stdout run2 = view_success id dates ++ [newline]
    /\ In date dates
    /\ proc_exit run2 = 0
    /\ proc_file run2 = proc_file run1.
Proof.
  intros what prog prog' arg date id st can_write OK R V P T PD
         run1 run2 dates.
  assert (E1 : proc_file run1
               = Some (encode (snd (markAttendance id date st)))).
  { unfold run1, main. cbv zeta.
    rewrite (load_encoded st OK R V P).
    cbn [length Nat.ltb Nat.leb nth Nat.eqb negb].
    change (cstring_eqb (str "mark") (str "mark")) with true.
    cbv iota. rewrite T. reflexivity. }
  destruct (marked_store_round_trips st id date OK R V P (stoi_range _ _ T) PD)
    as (OK' & R' & V' & P').
  assert (E2 : run2
               = respond (viewAttendance id (snd (markAttendance id date st)))
                   (decoded (snd (markAttendance id date st)))
                   (proc_file run1)).
  { unfold run2, main. cbv zeta. rewrite E1.
    rewrite (load_encoded _ OK' R' V' P').
    cbn [length Nat.ltb Nat.leb nth Nat.eqb negb].
    change (cstring_eqb (str "view") (str "mark")) with false.
    change (cstring_eqb (str "view") (str "view")) with true.
    cbv iota. rewrite T. reflexivity. }
  rewrite E2. unfold respond. cbn [proc_stdout proc_exit proc_file].
  repeat split.
  - f_equal. apply viewAttendance_found. rewrite find_markAttendance.
    now rewrite Z.eqb_refl.
  - apply marked_dates_In. now right.
Qed.

Lemma view_run_after_mark_run_witness :
  let st := [(101, [str "2025-07-02"])] in
  let run1 :=
    main (fun _ => str "stoi") [str "app"; str "mark"; str "101"; str "2025-07-01"]
         (Some (encode st)) true in
  let run2 :=
    main (fun _ => str "stoi") [str "app"; str "view"; str "101"]
         (proc_file run1) false in
  let dates := marked_dates (str "2025-07-01") (date_set 101 st) in
  proc_stdout run2 = view_success 101 dates ++ [newline]
  /\ In (str "2025-07-01") dates
  /\ proc_exit run2 = 0
  /\ proc_file run2 = proc_file run1.
Proof.
  apply (view_run_after_mark_run (fun _ => str "stoi")
           (str "app") (str "app") (str "101") (str "2025-07-01") 101
           [(101, [str "2025-07-02"])] false).
  - repeat constructor.
  - intros id H. simpl in H. destruct H as [<-|[]].
    vm_compute. split; discriminate.
  - intros id v H. simpl in H. destruct (id =? 101); inversion H; subst.
    split; repeat constructor. simpl. tauto.
  - intros id v d H I. simpl in H. destruct (id =? 101); inversion H; subst.
    simpl in I. destruct I as [<-|[]]. reflexivity.
  - reflexivity.
  - reflexivity.
Defined.

Lemma load_failure_leaves_empty :
  forall file,
    loaded (loadData file StdMap.empty) = false ->
    load_store (loadData file StdMap.empty) = StdMap.empty.
Proof.
  intros file. unfold loadData.
  destruct file as [json|]; auto.
  destruct (length json =? 0)%nat; auto.
  destruct (_ || _ || _); auto.
  destruct (parse_body _ StdMap.empty); simpl; auto. discriminate.
Qed.

Lemma first_mark :
  forall id date,
    markAttendance id date StdMap.empty = (mark_success id date, [(id, [date])]).
Proof.
  intros id date. rewrite markAttendance_fresh by (simpl; tauto).
  f_equal.
  change (StdMap.touch id StdMap.empty) with ([] ++ [(id, @nil cstring)]).
  rewrite push_back_last, sort_at_last by constructor.
  reflexivity.
Qed.

(** X18.  A [mark] run never refuses to run on a data file it could not
    load: when [loadData] returns false (no file, an empty file, a text
    without the outer braces, an entry with an unparseable id), the mark
    is applied to the empty store, the run answers with success and, if
    the file opens for writing, the file afterwards holds that one mark
    only, whatever it held before. *)
Theorem mark_run_replaces_unreadable_file :
  forall (what : exception -> cstring) (prog arg date : cstring) (id : Z)
         (file : option cstring),
    loaded (loadData file StdMap.empty) = false ->
    stoi arg = Ok id ->
    let run := main what [prog; str "mark"; arg; date] file true in
    proc_stdout run = mark_success id date ++ [newline]
    /\ proc_exit run = 0
    /\ proc_file run = Some (encode [(id, [date])]).
Proof.
  intros what prog arg date id file L T run. unfold run, main. cbv zeta.
  rewrite (load_failure_leaves_empty file L).
  cbn [length Nat.ltb Nat.leb nth Nat.eqb negb].
  change (cstring_eqb (str "mark") (str "mark")) with true.
  cbv iota. rewrite T, first_mark. repeat split.
Qed.

Lemma mark_run_replaces_unreadable_file_witness :
  let run :=
    main (fun _ => str "stoi") [str "app"; str "mark"; str "7"; str "2025-07-01"]
         (Some (lit "{'101':['2025-07-01'],'x02':['2025-07-02']}")) true in
  proc_stdout run = mark_success 7 (str "2025-07-01") ++ [newline]
  /\ proc_exit run = 0
  /\ proc_file run = Some (encode [(7, [str "2025-07-01"])]).
Proof.
  apply (mark_run_replaces_unreadable_file (fun _ => str "stoi")
           (str "app") (str "7") (str "2025-07-01") 7
           (Some (lit "{'101':['2025-07-01'],'x02':['2025-07-02']}"))).
  - reflexivity.
  - reflexivity.
Defined.

(** X19.  [view] and [stats] runs on the file of a saved store answer
    as the member functions do on that store: started on the encoding of
    a valid store, [view <roll_no>] prints what [viewAttendance] returns
    and [stats] prints what [getOverallStats] returns; both exit with 0,
    report nothing on the error stream and leave the file as it is,
    whether or not it can be written. *)
Theorem query_runs_answer_from_the_file :
  forall (what : exception -> cstring) (prog arg : cstring) (id : Z)
         (st : Store) (can_write : bool),
    StdMap.ok st -> keys_in_range st -> valid_store st -> plain_store st ->
    stoi arg = Ok id ->
    main what [prog; str "view"; arg] (Some (encode st)) can_write
    = Build_process_result (viewAttendance id st ++ [newline]) 0 []
                           (Some (encode st))
    /\ main what [prog; str "stats"] (Some (encode st)) can_write
       = Build_process_result (getOverallStats st ++ [newline]) 0 []
                              (Some (encode st)).
Proof.
  intros what prog arg id st can_write OK R V P T. split.
  - unfold main. cbv zeta. rewrite (load_encoded st OK R V P).
    cbn [length Nat.ltb Nat.leb nth Nat.eqb negb].
    change (cstring_eqb (str "view") (str "mark")) with false.
    change (cstring_eqb (str "view") (str "view")) with true.
    cbv iota. rewrite T. reflexivity.
  - unfold main. cbv zeta. rewrite (load_encoded st OK R V P).
    cbn [length Nat.ltb Nat.leb nth Nat.eqb negb].
    change (cstring_eqb (str "stats") (str "mark")) with false.
    change (cstring_eqb (str "stats") (str "view")) with false.
    change (cstring_eqb (str "stats") (str "stats")) with true.
    reflexivity.
Qed.

Lemma query_runs_answer_from_the_file_witness :
  let st := [(101, [str "2025-07-01"])] in
  main (fun _ => str "stoi") [str "app"; str "view"; str "+101"]
       (Some (encode st)) false
  = Build_process_result (viewAttendance 101 st ++ [newline]) 0 []
                         (Some (encode st))
  /\ main (fun _ => str "stoi") [str "app"; str "stats"] (Some (encode st)) false
     = Build_process_result (getOverallStats st ++ [newline]) 0 []
                            (Some (encode st)).
Proof.
  apply (query_runs_answer_from_the_file (fun _ => str "stoi")
           (str "app") (str "+101") 101 [(101, [str "2025-07-01"])] false).
  - repeat constructor.
  - intros id H. simpl in H. destruct H as [<-|[]].
    vm_compute. split; discriminate.
  - intros id v H. simpl in H. destruct (id =? 101); inversion H; subst.
    split; repeat constructor. simpl. tauto.
  - intros id v d H I. simpl in H. destruct (id =? 101); inversion H; subst.
    simpl in I. destruct I as [<-|[]]. reflexivity.
  - reflexivity.
Defined.

(** ** Roll numbers with trailing text *)

Lemma read_digits_stop :
  forall rest acc n,
    match rest with
    | [] => True
    | c :: _ => is_digit c = false
    end ->
    read_digits rest acc n = (acc, n).
Proof.
  intros [|c rest] acc n H; [reflexivity|].
  simpl. unfold is_digit in H. now destruct (digit_value c).
Qed.

Lemma read_digits_pos_app :
  forall d rest p n,
    read_digits (uint_chars d ++ rest) (Z.pos p) n
    = read_digits rest (Z.pos (Pos.of_uint_acc d p))
                  (n + Decimal.nb_digits d)%nat.
Proof.
  induction d; intros rest p n;
    try (cbn [uint_chars NilEmpty.string_of_uint list_ascii_of_string app
                read_digits Pos.of_uint_acc Decimal.nb_digits];
         fold (uint_chars d);
         match goal with
         | |- context [digit_value ?c] =>
             let v := eval vm_compute in (digit_value c) in
             change (digit_value c) with v
         end;
         cbv iota beta;
         match goal with
         | |- read_digits _ ?a _ = read_digits _ (Z.pos (Pos.of_uint_acc _ ?b)) _ =>
             replace a with (Z.pos b) by lia
         end;
         rewrite IHd; f_equal; lia).
  simpl. f_equal. lia.
Qed.

Lemma read_digits_zero_app :
  forall d rest n,
    read_digits (uint_chars d ++ rest) 0 n
    = read_digits rest (Z.of_N (Pos.of_uint d)) (n + Decimal.nb_digits d)%nat.
Proof.
  induction d; intros rest n;
    try (cbn [uint_chars NilEmpty.string_of_uint list_ascii_of_string app
                read_digits Pos.of_uint Decimal.nb_digits];
         fold (uint_chars d);
         match goal with
         | |- context [digit_value ?c] =>
             let v := eval vm_compute in (digit_value c) in
             change (digit_value c) with v
         end;
         cbv iota beta).
  - simpl. f_equal. lia.
  - change (10 * 0 + 0) with 0. rewrite IHd. f_equal. lia.
  - change (10 * 0 + 1) with (Z.pos 1). rewrite read_digits_pos_app. f_equal. lia.
  - change (10 * 0 + 2) with (Z.pos 2). rewrite read_digits_pos_app. f_equal. lia.
  - change (10 * 0 + 3) with (Z.pos 3). rewrite read_digits_pos_app. f_equal. lia.
  - change (10 * 0 + 4) with (Z.pos 4). rewrite read_digits_pos_app. f_equal. lia.
  - change (10 * 0 + 5) with (Z.pos 5). rewrite read_digits_pos_app. f_equal. lia.
  - change (10 * 0 + 6) with (Z.pos 6). rewrite read_digits_pos_app. f_equal. lia.
  - change (10 * 0 + 7) with (Z.pos 7). rewrite read_digits_pos_app. f_equal. lia.
  - change (10 * 0 + 8) with (Z.pos 8). rewrite read_digits_pos_app. f_equal. lia.
  - change (10 * 0 + 9) with (Z.pos 9). rewrite read_digits_pos_app. f_equal. lia.
Qed.

Lemma read_digits_to_uint_app :
  forall p rest,
    match rest with
    | [] => True
    | c :: _ => is_digit c = false
    end ->
    exists n,
      read_digits (uint_chars (Pos.to_uint p) ++ rest) 0 O = (Z.pos p, S n).
Proof.
  intros p rest H.
  rewrite read_digits_zero_app, DecimalPos.Unsigned.of_to.
  rewrite read_digits_stop by assumption.
  pose proof (DecimalPos.Unsigned.to_uint_nonnil p) as NN.
  destruct (Pos.to_uint p); try congruence; simpl; eexists; reflexivity.
Qed.

Lemma stoi_ignores_suffix :
  forall k rest,
    in_int_range k ->
    match rest with
    | [] => True
    | c :: _ => is_digit c = false
    end ->
    stoi (to_string k ++ rest) = Ok k.
Proof.
  intros [|p|p] rest R H.
  - change (to_string 0) with ["0"%char]. unfold stoi.
    cbn [app skip_spaces]. change (is_space "0"%char) with false.
    cbv iota. change (Ascii.eqb "0"%char "-"%char) with false.
    change (Ascii.eqb "0"%char "+"%char) with false. cbv iota.
    cbn [read_digits]. change (digit_value "0"%char) with (Some 0).
    cbv iota. rewrite read_digits_stop by assumption. reflexivity.
  - change (to_string (Z.pos p)) with (uint_chars (Pos.to_uint p)).
    unfold stoi.
    destruct (read_digits_to_uint_app p rest H) as [n E].
    pose proof (uint_chars_digits (Pos.to_uint p)) as D.
    destruct (uint_chars (Pos.to_uint p)) as [|c s] eqn:U.
    + destruct (read_digits_to_uint p) as [m E']. rewrite U in E'.
      discriminate E'.
    + simpl in D. apply andb_true_iff in D. destruct D as [D _].
      apply digit_facts in D. destruct D as (D0 & D1 & D2 & _).
      cbn [app skip_spaces]. rewrite D0, D1, D2.
      change (c :: s ++ rest) with ((c :: s) ++ rest). rewrite E.
      unfold in_int_range in R.
      destruct R as [R1 R2]. apply Z.leb_le in R1, R2. now rewrite R1, R2.
  - change (to_string (Z.neg p)) with ("-"%char :: uint_chars (Pos.to_uint p)).
    unfold stoi. cbn [app skip_spaces].
    change (is_space "-"%char) with false. cbv iota.
    change (Ascii.eqb "-"%char "-"%char) with true. cbv iota.
    destruct (read_digits_to_uint_app p rest H) as [n E]. rewrite E.
    change (- Z.pos p) with (Z.neg p).
    unfold in_int_range in R.
    destruct R as [R1 R2]. apply Z.leb_le in R1, R2. now rewrite R1, R2.
Qed.

(** X20.  The roll number argument is read leniently: text after the
    digits is ignored, so a run whose roll number argument is a number
    followed by any text that does not start with a digit behaves in
    every respect as the run with the number alone. *)
Theorem roll_number_suffix_is_ignored :
  forall (what : exception -> cstring) (prog command : cstring) (k : Z)
         (rest : cstring) (more : list cstring) (file : option cstring)
         (can_write : bool),
    in_int_range k ->
    match rest with
    | [] => True
    | c :: _ => is_digit c = false
    end ->
    main what (prog :: command :: (to_string k ++ rest) :: more) file can_write
    = main what (prog :: command :: to_string k :: more) file can_write.
Proof.
  intros what prog command k rest more file can_write R H.
  unfold main. cbn [length nth].
  now rewrite (stoi_ignores_suffix k rest R H), (stoi_to_string k R).
Qed.

Lemma roll_number_suffix_is_ignored_witness :
  main (fun _ => str "stoi") [str "app"; str "mark"; str "101abc"; str "d"]
       None true
  = main (fun _ => str "stoi") [str "app"; str "mark"; str "101"; str "d"]
         None true.
Proof.
  apply (roll_number_suffix_is_ignored (fun _ => str "stoi")
           (str "app") (str "mark") 101 (str "abc") [str "d"] None true).
  - vm_compute. split; discriminate.
  - reflexivity.
Defined.

(** * The answers as texts *)

(** ** [std::to_string] writes the decimal text *)

Lemma digit_of_digit_value : forall c, digit_of c = digit_value c.
Proof. intros c. destruct c as [[] [] [] [] [] [] [] []]; reflexivity. Qed.

Lemma numeral_value_digits :
  forall s acc n,
    forallb is_digit s = true ->
    numeral_value s acc = Some (fst (read_digits s acc n)).
Proof.
  induction s as [|c s IH]; intros acc n H; [reflexivity|].
  cbn [forallb] in H. apply andb_true_iff in H. destruct H as [Hc Hs].
  cbn [numeral_value read_digits]. rewrite digit_of_digit_value.
  unfold is_digit in Hc.
  destruct (digit_value c) as [d|]; [|discriminate Hc].
  now apply IH.
Qed.

Lemma unorm_leading_zero :
  forall d l, Decimal.unorm d = Decimal.D0 l -> l = Decimal.Nil.
Proof.
  induction d; intros l H; simpl in H; try discriminate H; auto.
  now injection H as <-.
Qed.

Lemma to_uint_no_leading_zero :
  forall p l, Pos.to_uint p <> Decimal.D0 l.
Proof.
  intros p l E.
  pose proof (DecimalPos.Unsigned.to_of (Pos.to_uint p)) as N.
  rewrite DecimalPos.Unsigned.of_to in N. simpl in N.
  rewrite E in N. symmetry in N. apply unorm_leading_zero in N. subst l.
  exact (DecimalPos.Unsigned.to_uint_nonzero p E).
Qed.

Lemma uint_chars_first :
  forall d ds, uint_chars d = "0"%char :: ds -> exists l, d = Decimal.D0 l.
Proof.
  intros d ds H. destruct d; simpl in H; try discriminate H.
  now eexists.
Qed.

Lemma unsigned_numeral_to_uint :
  forall p, unsigned_numeral (uint_chars (Pos.to_uint p)) (Z.pos p).
Proof.
  intros p. split; [|split].
  - intros E. destruct (read_digits_to_uint p) as [n R].
    rewrite E in R. discriminate R.
  - intros ds E. apply uint_chars_first in E. destruct E as [l E].
    now apply to_uint_no_leading_zero in E.
  - rewrite (numeral_value_digits _ 0 O (uint_chars_digits _)).
    destruct (read_digits_to_uint p) as [n R]. now rewrite R.
Qed.

(** What [std::to_string] returns is the decimal text of its
    argument. *)
Lemma decimal_to_string : forall z, decimal_text (to_string z) z.
Proof.
  intros [|p|p].
  - change (to_string 0) with ["0"%char]. simpl. split; [lia|].
    split; [discriminate|]. split; [|reflexivity].
    now intros ds [= <-].
  - change (to_string (Z.pos p)) with (uint_chars (Pos.to_uint p)).
    pose proof (unsigned_numeral_to_uint p) as U.
    pose proof (uint_chars_digits (Pos.to_uint p)) as D.
    destruct (uint_chars (Pos.to_uint p)) as [|c s] eqn:E.
    + now destruct U.
    + cbn [forallb] in D. apply andb_true_iff in D. destruct D as [D _].
      apply digit_facts in D. destruct D as (_ & D & _).
      unfold decimal_text. rewrite D. split; [lia|exact U].
  - change (to_string (Z.neg p)) with ("-"%char :: uint_chars (Pos.to_uint p)).
    unfold decimal_text. rewrite Ascii.eqb_refl. split; [lia|].
    apply unsigned_numeral_to_uint.
Qed.

Lemma numeral_is_uint :
  forall ds acc n,
    numeral_value ds acc = Some n -> exists d, ds = uint_chars d.
Proof.
  induction ds as [|c ds IH]; intros acc n H.
  - now exists Decimal.Nil.
  - cbn [numeral_value] in H.
    destruct (digit_of c) as [v|] eqn:D; [|discriminate H].
    apply IH in H. destruct H as [d ->].
    unfold digit_of in D.
    repeat match type of D with
    | (if Ascii.eqb c ?x then _ else _) = _ =>
        destruct (Ascii.eqb_spec c x) as [->|_]
    end; try discriminate D.
    + now exists (Decimal.D0 d).
    + now exists (Decimal.D1 d).
    + now exists (Decimal.D2 d).
    + now exists (Decimal.D3 d).
    + now exists (Decimal.D4 d).
    + now exists (Decimal.D5 d).
    + now exists (Decimal.D6 d).
    + now exists (Decimal.D7 d).
    + now exists (Decimal.D8 d).
    + now exists (Decimal.D9 d).
Qed.

Lemma uint_chars_nil : forall d, uint_chars d = [] -> d = Decimal.Nil.
Proof. intros d H. now destruct d. Qed.

Lemma unsigned_numeral_unique :
  forall ds n,
    unsigned_numeral ds n ->
    0 <= n /\ ds = uint_chars (N.to_uint (Z.to_N n)).
Proof.
  intros ds n (NE & LZ & V).
  destruct (numeral_is_uint ds 0 n V) as [d ->].
  rewrite (numeral_value_digits _ 0 O (uint_chars_digits d)),
    read_digits_zero in V.
  cbn [fst] in V. injection V as <-.
  split; [apply N2Z.is_nonneg|].
  rewrite N2Z.id, DecimalPos.Unsigned.to_of.
  destruct d; try reflexivity.
  - now contradiction NE.
  - specialize (LZ (uint_chars d) eq_refl).
    apply uint_chars_nil in LZ. now subst d.
Qed.

(** The decimal text of a number is the one [std::to_string] writes,
    and no other. *)
Lemma decimal_text_unique :
  forall t z, decimal_text t z -> t = to_string z.
Proof.
  intros t z H. destruct t as [|c ds]; [contradiction H|].
  unfold decimal_text in H.
  destruct (Ascii.eqb_spec c "-"%char) as [->|_].
  - destruct H as [N U]. apply unsigned_numeral_unique in U.
    destruct U as [_ ->]. destruct z as [|p|p]; try lia.
    reflexivity.
  - destruct H as [_ U]. apply unsigned_numeral_unique in U.
    destruct U as [P ->]. destruct z as [|p|p]; try lia; reflexivity.
Qed.


(** ** The answers of [markAttendance] *)

(** C1.  Marking a date a student does not have yet answers with the
    success object, which names the id in decimal and the date, and
    records the date; marking the same (id, date) again answers with the
    error object for a date already marked, which names them too and is
    a different text; after both calls the student's DateSet is longer
    by exactly one. *)
Theorem mark_twice_counts_once :
  forall (st : Store) (id : Z) (date : cstring),
    ~ In date (date_set id st) ->
    let first := markAttendance id date st in
    let second := markAttendance id date (snd first) in
    exists t : cstring,
      decimal_text t id /\
      fst first
      = lit "{'status': 'success', 'message': 'Attendance marked for Roll No: "
          ++ t ++ str " on " ++ date ++ lit "'}" /\
      In date (date_set id (snd first)) /\
      fst second
      = lit "{'status': 'error', 'message': 'Attendance already marked for Roll No: "
          ++ t ++ str " on " ++ date ++ lit "'}" /\
      fst second <> fst first /\
      length (date_set id (snd second)) = S (length (date_set id st)).
Proof.
  intros st id date H first second.
  assert (E1 : first = (mark_success id date,
                        sort_at id (push_back_at id date (StdMap.touch id st))))
    by (unfold first; now apply markAttendance_fresh).
  assert (I : In date (date_set id (snd first))).
  { rewrite E1. simpl. rewrite date_set_after_fresh_mark.
    eapply Permutation_in; [apply Permutation_sym, std_sort_perm|].
    apply in_or_app. right. now left. }
  assert (E2 : second = (mark_duplicate id date, StdMap.touch id (snd first)))
    by (unfold second; now apply markAttendance_present).
  exists (to_string id).
  split; [apply decimal_to_string|].
  split; [now rewrite E1|].
  split; [exact I|].
  split; [now rewrite E2|].
  split.
  - rewrite E1, E2. cbn [fst]. intros C. symmetry in C. revert C.
    apply mark_results_differ.
  - rewrite E2. simpl. unfold date_set. rewrite get_touch.
    rewrite E1. simpl.
    fold (date_set id (sort_at id (push_back_at id date (StdMap.touch id st)))).
    rewrite date_set_after_fresh_mark.
    rewrite (Permutation_length (std_sort_perm _)), length_app.
    unfold date_set. simpl. lia.
Qed.

Lemma mark_twice_counts_once_witness :
  let st := [(101, [str "2025-07-01"])] in
  let first := markAttendance 101 (str "2025-07-02") st in
  let second := markAttendance 101 (str "2025-07-02") (snd first) in
  exists t : cstring,
    decimal_text t 101 /\
    fst first
    = lit "{'status': 'success', 'message': 'Attendance marked for Roll No: "
        ++ t ++ str " on " ++ str "2025-07-02" ++ lit "'}" /\
    In (str "2025-07-02") (date_set 101 (snd first)) /\
    fst second
    = lit "{'status': 'error', 'message': 'Attendance already marked for Roll No: "
        ++ t ++ str " on " ++ str "2025-07-02" ++ lit "'}" /\
    fst second <> fst first /\
    length (date_set 101 (snd second)) = S (length (date_set 101 st)).
Proof.
  apply (mark_twice_counts_once [(101, [str "2025-07-01"])] 101 (str "2025-07-02")).
  simpl. intros [H|[]]. discriminate H.
Defined.

(** ** The answers of [viewAttendance] *)

(** C7.  For a student in the store [viewAttendance] answers with the
    success object: the id in decimal and all dates of the student in
    their stored order, each escaped and quoted.  For a student the
    store lacks it answers with the not-found error object, which names
    the id in decimal; the success object is never that text. *)
Theorem viewAttendance_result :
  forall (st : Store) (id : Z),
    exists t : cstring,
      decimal_text t id /\
      match StdMap.find id st with
      | Some dates =>
          viewAttendance id st
          = lit "{'status': 'success', 'roll_no': " ++ t
              ++ lit ", 'dates': ["
              ++ join (str ", ")
                   (List.map (fun d => [dquote] ++ flat_map escape_char d
                                         ++ [dquote]) dates)
              ++ str "]}"
          /\ viewAttendance id st
             <> lit "{'status': 'error', 'message': 'Roll No: " ++ t
                  ++ lit " not found.'}"
      | None =>
          viewAttendance id st
          = lit "{'status': 'error', 'message': 'Roll No: " ++ t
              ++ lit " not found.'}"
      end.
Proof.
  intros st id. exists (to_string id).
  split; [apply decimal_to_string|].
  destruct (StdMap.find id st) as [dates|] eqn:F.
  - assert (E : viewAttendance id st
                = lit "{'status': 'success', 'roll_no': " ++ to_string id
                    ++ lit ", 'dates': ["
                    ++ join (str ", ")
                         (List.map (fun d => [dquote] ++ flat_map escape_char d
                                               ++ [dquote]) dates)
                    ++ str "]}").
    { rewrite (viewAttendance_found st id dates F). unfold view_success.
      replace (List.map (fun d => [dquote] ++ flat_map escape_char d ++ [dquote])
                        dates)
        with (List.map quoted_date dates); [reflexivity|].
      apply map_ext. intros d.
      unfold quoted_date, quoted. now rewrite escape_json_string_spec. }
    split; [exact E|].
    rewrite E. cbn. discriminate.
  - unfold viewAttendance. rewrite F. reflexivity.
Qed.

(** ** The text of [saveData] *)

(** C8.  [saveData] always produces its text once the file is open; the
    text is an opening brace, the students' entries separated by commas,
    and a closing brace; an entry is the id in decimal between quotes, a
    colon and the bracketed, comma-separated, quoted dates; a date is
    escaped character by character by the five rules and no other
    character is changed. *)
Theorem encode_format :
  forall st : Store,
    (saved (saveData true st) = true /\
     save_file (saveData true st) = Some (encode st)) /\
    encode st = str "{" ++ join (str ",") (List.map encode_entry st) ++ str "}" /\
    (forall id dates,
        exists t : cstring,
          decimal_text t id /\
          encode_entry (id, dates)
          = [dquote] ++ t ++ [dquote] ++ str ":["
              ++ join (str ",")
                   (List.map (fun d => [dquote] ++ escape_json_string d ++ [dquote])
                             dates)
              ++ str "]") /\
    (forall s, escape_json_string s = flat_map escape_char s) /\
    escape_char dquote = [backslash; dquote] /\
    escape_char backslash = [backslash; backslash] /\
    escape_char newline = [backslash; "n"%char] /\
    escape_char carriage_return = [backslash; "r"%char] /\
    escape_char tab = [backslash; "t"%char] /\
    (forall c,
        ~ In c [dquote; backslash; newline; carriage_return; tab] ->
        escape_char c = [c]).
Proof.
  intros st. split; [split; reflexivity|].
  split; [apply encode_spec|].
  split.
  { intros id dates. exists (to_string id).
    split; [apply decimal_to_string|].
    unfold encode_entry, quoted. simpl.
    now rewrite <- !app_assoc. }
  split; [apply escape_json_string_spec|].
  repeat (split; [reflexivity|]).
  intros c H. unfold escape_char.
  repeat match goal with
  | |- context [Ascii.eqb c ?x] =>
      destruct (Ascii.eqb_spec c x) as [->|_];
        [exfalso; apply H; simpl; tauto|]
  end.
  reflexivity.
Qed.

Lemma encode_format_witness :
  encode [(-7, [str "a-b"; [dquote]]); (101, [str "2025-07-01"])]
  = lit "{'-7':['a-b','\''],'101':['2025-07-01']}"
  /\ escape_char "-"%char = ["-"%char].
Proof.
  split.
  - rewrite (proj1 (proj2 (encode_format
                [(-7, [str "a-b"; [dquote]]); (101, [str "2025-07-01"])]))).
    reflexivity.
  - apply (encode_format
             [(-7, [str "a-b"; [dquote]]); (101, [str "2025-07-01"])]).
    simpl. intros [H|[H|[H|[H|[H|[]]]]]]; discriminate H.
Defined.

(** ** The answer of [getOverallStats] *)

(** The three numbers the answer carries, for every store: the first
    and the last have passed through an [int]. *)
Lemma getOverallStats_wrapped :
  forall st : Store,
    getOverallStats st
    = stats_json (wrap_int (Z.of_nat (StdMap.size st)))
                 (Z.of_nat (count_distinct cstring_dec (all_dates st)))
                 (wrap_int (Z.of_nat (total_entries st))).
Proof.
  intros st. unfold getOverallStats.
  change (0, @nil cstring) with (wrap_int 0, @nil cstring).
  rewrite stats_loop_spec. cbn [fst snd].
  now rewrite unique_dates_count.
Qed.

Lemma stats_json_text :
  forall a b c,
    stats_json a b c
    = lit "{'status': 'success', 'stats': {'total_students': "
        ++ to_string a ++ lit ", 'total_unique_dates': "
        ++ to_string b ++ lit ", 'total_attendance_entries': "
        ++ to_string c ++ str "}}".
Proof.
  intros a b c. unfold stats_json.
  change (lit "{'status': 'success', 'stats': {'total_students': ")
    with (lit "{'status': 'success', 'stats': {" ++ lit "'total_students': ").
  change (lit ", 'total_unique_dates': ")
    with (str ", " ++ lit "'total_unique_dates': ").
  change (lit ", 'total_attendance_entries': ")
    with (str ", " ++ lit "'total_attendance_entries': ").
  now rewrite <- !app_assoc.
Qed.

(** C4.  For every store with at most INT_MAX students and at most
    INT_MAX attendance entries, the answer of [getOverallStats] is the
    success object whose three fields are, in decimal, the number of
    distinct ids, the number of distinct dates over all students (a
    shared date counted once) and the sum of the lengths of the
    DateSets; on the empty store the three fields are 0. *)
Theorem getOverallStats_counts :
  forall st : Store,
    StdMap.ok st ->
    Z.of_nat (count_distinct Z.eq_dec (StdMap.keys st)) <= INT_MAX ->
    Z.of_nat (total_entries st) <= INT_MAX ->
    (exists t1 t2 t3 : cstring,
        decimal_text t1 (Z.of_nat (count_distinct Z.eq_dec (StdMap.keys st))) /\
        decimal_text t2 (Z.of_nat (count_distinct cstring_dec (all_dates st))) /\
        decimal_text t3 (Z.of_nat (total_entries st)) /\
        getOverallStats st
        = lit "{'status': 'success', 'stats': {'total_students': "
            ++ t1 ++ lit ", 'total_unique_dates': "
            ++ t2 ++ lit ", 'total_attendance_entries': "
            ++ t3 ++ str "}}")
    /\ getOverallStats StdMap.empty
       = lit "{'status': 'success', 'stats': {'total_students': 0, 'total_unique_dates': 0, 'total_attendance_entries': 0}}".
Proof.
  intros st OK H1 H2. split; [|reflexivity].
  rewrite distinct_keys_count in * by assumption.
  exists (to_string (Z.of_nat (StdMap.size st))),
         (to_string (Z.of_nat (count_distinct cstring_dec (all_dates st)))),
         (to_string (Z.of_nat (total_entries st))).
  repeat (split; [apply decimal_to_string|]).
  rewrite getOverallStats_wrapped, stats_json_text.
  rewrite !wrap_int_small; auto;
    unfold in_int_range, INT_MIN, INT_MAX in *; lia.
Qed.

Lemma getOverallStats_counts_witness :
  let st := [(101, [str "2025-07-01"; str "2025-07-02"]);
             (102, [str "2025-07-01"])] in
  (exists t1 t2 t3 : cstring,
      decimal_text t1 (Z.of_nat (count_distinct Z.eq_dec (StdMap.keys st))) /\
      decimal_text t2 (Z.of_nat (count_distinct cstring_dec (all_dates st))) /\
      decimal_text t3 (Z.of_nat (total_entries st)) /\
      getOverallStats st
      = lit "{'status': 'success', 'stats': {'total_students': "
          ++ t1 ++ lit ", 'total_unique_dates': "
          ++ t2 ++ lit ", 'total_attendance_entries': "
          ++ t3 ++ str "}}")
  /\ getOverallStats StdMap.empty
     = lit "{'status': 'success', 'stats': {'total_students': 0, 'total_unique_dates': 0, 'total_attendance_entries': 0}}".
Proof.
  apply (getOverallStats_counts
           [(101, [str "2025-07-01"; str "2025-07-02"]);
            (102, [str "2025-07-01"])]).
  - repeat constructor.
  - vm_compute. discriminate.
  - vm_compute. discriminate.
Defined.

(** ** A store whose entries do not fit an [int] *)

Lemma str_compare_repeat_S :
  forall c k, str_compare (repeat c (S k)) (repeat c k) = Gt.
Proof.
  intros c. induction k as [|k IH]; [reflexivity|].
  change (repeat c (S (S k))) with (c :: repeat c (S k)).
  change (repeat c (S k)) with (c :: repeat c k) at 2.
  cbn [str_compare]. now rewrite N.compare_refl.
Qed.

Lemma tallies_from_sorted :
  forall n a,
    Sorted str_le (List.map (fun k => repeat "1"%char k) (seq a n)).
Proof.
  induction n as [|n IH]; intros a; [constructor|].
  cbn [seq List.map]. constructor; [apply IH|].
  destruct n as [|n]; cbn [seq List.map]; constructor.
  unfold str_le, str_ltb. now rewrite str_compare_repeat_S.
Qed.

Lemma NoDup_map_injective :
  forall (A B : Type) (f : A -> B) (l : list A),
    (forall x y, f x = f y -> x = y) ->
    NoDup l -> NoDup (List.map f l).
Proof.
  intros A B f l Inj N. induction N as [|x l NI N IH]; [constructor|].
  cbn [List.map]. constructor; [|exact IH].
  intros I. apply in_map_iff in I. destruct I as (y & E & I).
  apply Inj in E. now subst y.
Qed.

Lemma tallies_valid : forall n, valid_dates (tallies n).
Proof.
  intros n. split; [apply tallies_from_sorted|].
  apply NoDup_map_injective; [|apply seq_NoDup].
  intros x y E. apply (f_equal (@length ascii)) in E.
  now rewrite !repeat_length in E.
Qed.

Lemma tallies_length : forall n, length (tallies n) = n.
Proof. intros n. unfold tallies. now rewrite length_map, length_seq. Qed.

Lemma one_student_valid :
  forall (v : vector), valid_dates v -> valid_store [(1, v)].
Proof.
  intros v V id w F. cbn [StdMap.find] in F.
  destruct (id =? 1); [|discriminate F]. now injection F as <-.
Qed.

Lemma one_student_ok : forall (v : vector), StdMap.ok [(1, v)].
Proof. intros v. repeat constructor. Qed.

Lemma one_student_counts :
  forall (v : vector),
    NoDup v ->
    count_distinct Z.eq_dec (StdMap.keys [(1, v)]) = 1%nat /\
    count_distinct cstring_dec (all_dates [(1, v)]) = length v /\
    total_entries [(1, v)] = length v.
Proof.
  intros v N. split; [|split].
  - now rewrite distinct_keys_count by apply one_student_ok.
  - unfold all_dates, count_distinct. cbn [flat_map snd].
    now rewrite app_nil_r, nodup_fixed_point.
  - rewrite total_entries_cons. unfold total_entries. cbn [List.map list_sum].
    apply Nat.add_0_r.
Qed.

Lemma one_student_stats :
  forall (v : vector),
    NoDup v ->
    getOverallStats [(1, v)]
    = stats_json 1 (Z.of_nat (length v)) (wrap_int (Z.of_nat (length v))).
Proof.
  intros v N. rewrite getOverallStats_wrapped.
  destruct (one_student_counts v N) as (_ & -> & ->).
  reflexivity.
Qed.

(** A valid store of one student with [2^31] different dates has one
    id, [2^31] distinct dates and [2^31] entries, and
    [getOverallStats] reports [-2147483648] attendance entries: not the
    sum of the lengths of the DateSets. *)
Lemma getOverallStats_overflows :
  StdMap.ok crowded_store /\
  valid_store crowded_store /\
  Z.of_nat (count_distinct Z.eq_dec (StdMap.keys crowded_store)) = 1 /\
  Z.of_nat (count_distinct cstring_dec (all_dates crowded_store)) = 2147483648 /\
  Z.of_nat (total_entries crowded_store) = 2147483648 /\
  getOverallStats crowded_store
  = lit "{'status': 'success', 'stats': {'total_students': 1, 'total_unique_dates': 2147483648, 'total_attendance_entries': -2147483648}}".
Proof.
  change crowded_store with [(1, tallies (Z.to_nat 2147483648))].
  generalize (Z2Nat.id 2147483648).
  generalize (Z.to_nat 2147483648). intros n Hn.
  assert (L : Z.of_nat (length (tallies n)) = 2147483648)
    by (rewrite tallies_length; apply Hn; discriminate).
  pose proof (tallies_valid n) as V.
  destruct (one_student_counts (tallies n) (proj2 V)) as (C1 & C2 & C3).
  split; [apply one_student_ok|].
  split; [now apply one_student_valid|].
  split; [now rewrite C1|].
  split; [now rewrite C2|].
  split; [now rewrite C3|].
  rewrite (one_student_stats (tallies n) (proj2 V)), L.
  reflexivity.
Qed.
